(** * Signaling server of the 1:1 video-calling prototype

    A shallow embedding of [server/src/index.ts]: the room registry
    ([roomIdToParticipants]), the Socket.IO event handlers ([join_room],
    [offer], [answer], [ice_candidate], [leave_room], [disconnect]), the
    Xirsys credential cache ([xirsysCache], [fetchXirsysIceServers]) and the
    [GET /config] handler.

    The handlers are written with explicit state passing: each one takes the
    server state and returns the new state together with the list of events
    it emits, each paired with the connection that receives it. *)

From stdpp Require Import gmap strings list fin_maps.
From Stdlib Require Import ZArith Ascii.

#[local] Set Warnings "-clear-no-such-hyp".

Local Open Scope string_scope.
Local Open Scope list_scope.

(** ** JSON values

    Session descriptions, ICE candidates and the body returned by the
    credential issuer are opaque to the server; they are carried as JSON. *)

#[local] Set Warnings "-register-all".

Inductive Json : Type :=
| JNull
| JBool (b : bool)
| JNum (n : Z)
| JStr (s : string)
| JArr (items : list Json)
| JObj (fields : list (string * Json)).

(** ** JavaScript [Map] with string keys

    A [Map] iterates in insertion order; [set] on a key that is present keeps
    its position and replaces the value. *)

Module JsMap.

Fixpoint get {V} (k : string) (m : list (string * V)) : option V :=
  match m with
  | [] => None
  | (k', v) :: m' => if decide (k' = k) then Some v else get k m'
  end.

Fixpoint set {V} (k : string) (v : V) (m : list (string * V)) : list (string * V) :=
  match m with
  | [] => [(k, v)]
  | (k', v') :: m' =>
      if decide (k' = k) then (k, v) :: m' else (k', v') :: set k v m'
  end.

Fixpoint delete {V} (k : string) (m : list (string * V)) : list (string * V) :=
  match m with
  | [] => []
  | (k', v') :: m' =>
      if decide (k' = k) then delete k m' else (k', v') :: delete k m'
  end.

Definition size {V} (m : list (string * V)) : nat := List.length m.

Definition keys {V} (m : list (string * V)) : list string := m.*1.

End JsMap.

(** ** JavaScript [Set] of strings (insertion ordered), as Socket.IO keeps
    the connections of a room. *)

Module JsSet.

Definition add (x : string) (s : list string) : list string :=
  if decide (x ∈ s) then s else s ++ [x].

Definition remove (x : string) (s : list string) : list string :=
  List.filter (λ y, bool_decide (y ≠ x)) s.

End JsSet.

(** ** Events sent by the server to a connection *)

Inductive ServerEvent : Type :=
| error_message (message : string)
| room_full (roomId : string)
| peer_joined (socketId displayName : string)
| joined_room (roomId : string) (peers : list (string * string))
| offer (from : string) (sdp : Json)
| answer (from : string) (sdp : Json)
| ice_candidate (from : string) (candidate : Json)
| peer_left (socketId : string).

(** An emitted event together with the connection that receives it. *)
Definition Output : Type := string * ServerEvent.

(** ** Server state *)

(** [socket.data] and the liveness of one connection. *)
Record Socket : Type := mkSocket {
  connected : bool;
  data_roomId : option string;
  data_displayName : option string
}.

(** [xirsysCache]: the descriptors and the time they were fetched. *)
Record XirsysCache : Type := mkCache {
  iceServers : list Json;
  fetchedAt : Z
}.

Record ServerState : Type := mkState {
  (** [const roomIdToParticipants = new Map<RoomId, Map<string, DisplayName>>()] *)
  roomIdToParticipants : gmap string (list (string * string));
  (** [let xirsysCache] *)
  xirsysCache : option XirsysCache;
  (** Socket.IO: the connections of each transport room. *)
  io_rooms : gmap string (list string);
  (** Socket.IO: every connection the server has accepted. *)
  io_sockets : gmap string Socket
}.

Definition initial_state : ServerState :=
  mkState ∅ None ∅ ∅.

Definition with_participants (reg : gmap string (list (string * string)))
    (st : ServerState) : ServerState :=
  mkState reg (xirsysCache st) (io_rooms st) (io_sockets st).

Definition with_cache (c : option XirsysCache) (st : ServerState) : ServerState :=
  mkState (roomIdToParticipants st) c (io_rooms st) (io_sockets st).

Definition with_rooms (rs : gmap string (list string)) (st : ServerState) : ServerState :=
  mkState (roomIdToParticipants st) (xirsysCache st) rs (io_sockets st).

Definition with_sockets (ss : gmap string Socket) (st : ServerState) : ServerState :=
  mkState (roomIdToParticipants st) (xirsysCache st) (io_rooms st) ss.

(** ** The part of Socket.IO the handlers use

    Socket.IO is a library the server imports. The handlers use
    [socket.join], [socket.leave], [socket.emit] and
    [socket.to(room).emit]; they are modelled as the library documents
    them: a room is a set of connections, [to(room)] addresses every
    connection of the room except the sender, every socket starts in the
    room named by its own id, and a closing socket has left all its rooms
    by the time its ["disconnect"] handler runs. *)

(** The connections currently in transport room [room]. *)
Definition room_sockets (st : ServerState) (room : string) : list string :=
  default [] (io_rooms st !! room).

Definition is_connected (st : ServerState) (s : string) : bool :=
  match io_sockets st !! s with
  | Some sock => connected sock
  | None => false
  end.

(** [socket.join(room)] *)
Definition socket_join (s room : string) (st : ServerState) : ServerState :=
  with_rooms (<[room := JsSet.add s (room_sockets st room)]> (io_rooms st)) st.

(** [socket.leave(room)] *)
Definition socket_leave (s room : string) (st : ServerState) : ServerState :=
  with_rooms (alter (JsSet.remove s) room (io_rooms st)) st.

(** [socket.to(room).emit(ev)]: every connection in [room] except the
    sender. *)
Definition broadcast (st : ServerState) (s room : string) (ev : ServerEvent)
    : list Output :=
  (λ m, (m, ev)) <$> JsSet.remove s (room_sockets st room).

(** [socket.emit(ev)] *)
Definition emit (s : string) (ev : ServerEvent) : list Output := [(s, ev)].

(** A new connection: Socket.IO registers the socket with empty
    [socket.data] and places it in the room named by its own id. *)
Definition on_connection (s : string) (st : ServerState) : ServerState * list Output :=
  (socket_join s s (with_sockets (<[s := mkSocket true None None]> (io_sockets st)) st),
   []).

(** When a connection closes, Socket.IO removes it from all its rooms
    before the ["disconnect"] handler runs. *)
Definition socket_close (s : string) (st : ServerState) : ServerState :=
  with_sockets
    (alter (λ sock, mkSocket false (data_roomId sock) (data_displayName sock)) s
       (io_sockets st))
    (with_rooms (JsSet.remove s <$> io_rooms st) st).

(** ** The event handlers *)

(** [displayName || "Guest"] *)
Definition or_guest (displayName : option string) : string :=
  match displayName with
  | Some n => if decide (n = "") then "Guest" else n
  | None => "Guest"
  end.

(** [socket.on("join_room", ({ roomId, displayName }) => ...)] *)
Definition on_join_room (s roomId : string) (displayName : option string)
    (st : ServerState) : ServerState * list Output :=
  if decide (roomId = "") then
    (st, emit s (error_message "Invalid roomId"))
  else
    let participants := default [] (roomIdToParticipants st !! roomId) in
    if decide (2 ≤ JsMap.size participants)%nat then
      (st, emit s (room_full roomId))
    else
      let name := or_guest displayName in
      let participants := JsMap.set s name participants in
      let st := with_participants (<[roomId := participants]> (roomIdToParticipants st)) st in
      let st := socket_join s roomId st in
      let st :=
        with_sockets
          (alter (λ sock, mkSocket (connected sock) (Some roomId) (Some name)) s
             (io_sockets st)) st in
      (st,
       broadcast st s roomId (peer_joined s name)
       ++ emit s (joined_room roomId
                    (List.filter (λ p, bool_decide (p.1 ≠ s)) participants))).

(** The three relayed kinds of negotiation message. *)
Inductive RelayKind : Type := Offer | Answer | IceCandidate.

Definition relayed (k : RelayKind) (from : string) (payload : Json) : ServerEvent :=
  match k with
  | Offer => offer from payload
  | Answer => answer from payload
  | IceCandidate => ice_candidate from payload
  end.

(** [socket.on("offer", ...)], [socket.on("answer", ...)] and
    [socket.on("ice_candidate", ...)] have the same body. *)
Definition on_relay (k : RelayKind) (s roomId : string) (payload : Json)
    (st : ServerState) : ServerState * list Output :=
  if decide (roomId = "") then (st, [])
  else (st, broadcast st s roomId (relayed k s payload)).

Definition on_offer := on_relay Offer.
Definition on_answer := on_relay Answer.
Definition on_ice_candidate := on_relay IceCandidate.

(** [participants?.delete(socket.id)] on the map stored under [roomId]. *)
Definition delete_participant (s roomId : string)
    (reg : gmap string (list (string * string))) : gmap string (list (string * string)) :=
  match reg !! roomId with
  | Some participants => <[roomId := JsMap.delete s participants]> reg
  | None => reg
  end.

(** [socket.on("leave_room", ({ roomId }) => ...)] *)
Definition on_leave_room (s roomId : string) (st : ServerState)
    : ServerState * list Output :=
  if decide (roomId = "") then (st, [])
  else
    let st := socket_leave s roomId st in
    let st := with_participants (delete_participant s roomId (roomIdToParticipants st)) st in
    (st, broadcast st s roomId (peer_left s)).

(** [socket.on("disconnect", () => ...)] *)
Definition on_disconnect (s : string) (st : ServerState) : ServerState * list Output :=
  let st := socket_close s st in
  match io_sockets st !! s ≫= data_roomId with
  | Some roomId =>
      if decide (roomId = "") then (st, [])
      else
        let st1 := with_participants (delete_participant s roomId (roomIdToParticipants st)) st in
        let out := broadcast st1 s roomId (peer_left s) in
        match roomIdToParticipants st1 !! roomId with
        | Some participants =>
            if decide (JsMap.size participants = 0) then
              (with_participants (delete roomId (roomIdToParticipants st1)) st1, out)
            else (st1, out)
        | None => (st1, out)
        end
  | None => (st, [])
  end.

(** ** ICE configuration *)

(** The environment of the process: variables that are read as they are
    ([process.env.X], [None] when unset) and the module-level constants
    computed from the environment at start-up. *)
Record Env : Type := mkEnv {
  ICE_STUN_URLS : option string;
  TURN_URL : option string;
  TURN_USERNAME : option string;
  TURN_PASSWORD : option string;
  XIRSYS_IDENT : string;
  XIRSYS_SECRET : string;
  XIRSYS_CHANNEL : string;
  XIRSYS_TTL_SECONDS : Z;
  PUBLIC_BASE_URL : string
}.

(** *** The string operations of the handler *)

Definition is_space (c : ascii) : bool :=
  match nat_of_ascii c with
  | 9 | 10 | 11 | 12 | 13 | 32 => true
  | _ => false
  end.

Fixpoint drop_spaces (l : list ascii) : list ascii :=
  match l with
  | [] => []
  | c :: l' => if is_space c then drop_spaces l' else l
  end.

(** [s.trim()], on the white space of ASCII. *)
Definition trim (s : string) : string :=
  String.string_of_list_ascii
    (rev (drop_spaces (rev (drop_spaces (String.list_ascii_of_string s))))).

(** [s.split(",")]: the pieces between commas; the empty string gives one
    empty piece. *)
Fixpoint split_comma_aux (cur : list ascii) (l : list ascii) : list string :=
  match l with
  | [] => [String.string_of_list_ascii (rev cur)]
  | c :: l' =>
      if Ascii.eqb c "," then
        String.string_of_list_ascii (rev cur) :: split_comma_aux [] l'
      else split_comma_aux (c :: cur) l'
  end.

Definition split_comma (s : string) : list string :=
  split_comma_aux [] (String.list_ascii_of_string s).

(** Truthiness of a string. *)
Definition truthy (s : string) : bool := bool_decide (s ≠ "").

(** [(process.env.ICE_STUN_URLS || "stun:stun.l.google.com:19302")
      .split(",").map((s) => s.trim()).filter(Boolean)] *)
Definition stunUrls (env : Env) : list string :=
  let raw :=
    match ICE_STUN_URLS env with
    | Some s => if truthy s then s else "stun:stun.l.google.com:19302"
    | None => "stun:stun.l.google.com:19302"
    end in
  List.filter truthy (trim <$> split_comma raw).

(** The base list: [{ urls: stunUrls }] when at least one URL is
    configured. *)
Definition stun_servers (env : Env) : list Json :=
  match stunUrls env with
  | [] => []
  | urls => [JObj [("urls", JArr (JStr <$> urls))]]
  end.

(** The static relay entry built from [TURN_URL], [TURN_USERNAME] and
    [TURN_PASSWORD], when all three are set and non-blank. *)
Definition static_turn_servers (env : Env) : list Json :=
  let turnUrl := trim <$> TURN_URL env in
  let turnUsername := trim <$> TURN_USERNAME env in
  let turnPassword := trim <$> TURN_PASSWORD env in
  match turnUrl, turnUsername, turnPassword with
  | Some u, Some n, Some p =>
      if truthy u && truthy n && truthy p then
        [JObj [("urls", JStr u); ("username", JStr n); ("credential", JStr p)]]
      else []
  | _, _, _ => []
  end.

(** *** The external credential fetch *)

(** What a step of the [try] block can do: produce a value or throw. *)
Inductive Completion (A : Type) : Type :=
| Returned (a : A)
| Thrown (err : string).
Arguments Returned {A} a.
Arguments Thrown {A} err.

(** The response of the issuer: [res.ok], [res.status], and what
    [res.text()] and [res.json()] complete with. *)
Record FetchResponse : Type := mkResponse {
  res_ok : bool;
  res_status : Z;
  res_text : Completion string;
  res_json : Completion Json
}.

(** The outcome of [await fetch(endpoint, ...)]. *)
Definition FetchOutcome : Type := Completion FetchResponse.

(** The request made to the issuer; the encoding of the URL and of the
    authorization header is left uninterpreted. *)
Record FetchRequest : Type := mkRequest {
  req_channel : string;
  req_ident : string;
  req_secret : string
}.

(** [value?.[key]] on a JSON value: the field of an object, undefined on
    everything else. *)
Definition json_field (key : string) (v : option Json) : option Json :=
  match v with
  | Some (JObj fields) => JsMap.get key fields
  | _ => None
  end.

(** [!XIRSYS_IDENT || !XIRSYS_SECRET || !XIRSYS_CHANNEL] *)
Definition xirsys_unconfigured (env : Env) : bool :=
  negb (truthy (XIRSYS_IDENT env)) || negb (truthy (XIRSYS_SECRET env))
  || negb (truthy (XIRSYS_CHANNEL env)).

(** [xirsysCache && now - xirsysCache.fetchedAt < XIRSYS_TTL_SECONDS * 1000] *)
Definition cache_fresh (env : Env) (now : Z) (c : XirsysCache) : bool :=
  bool_decide (now - fetchedAt c < XIRSYS_TTL_SECONDS env * 1000)%Z.

(** The body of the [try] block. It completes with [Some r] when it
    executes [return r], with [None] when control falls out of the block;
    the second component is the value of [xirsysCache] afterwards. *)
Definition xirsys_try (now : Z) (net : FetchOutcome) (cache : option XirsysCache)
    : Completion (option (option (list Json))) * option XirsysCache :=
  match net with
  | Thrown e => (Thrown e, cache)
  | Returned res =>
      if negb (res_ok res) then
        match res_text res with
        | Thrown e => (Thrown e, cache)
        | Returned _ => (Returned (Some None), cache)
        end
      else
        match res_json res with
        | Thrown e => (Thrown e, cache)
        | Returned data =>
            match json_field "iceServers" (json_field "v" (Some data)) with
            | Some (JArr (x :: l)) =>
                (Returned (Some (Some (x :: l))), Some (mkCache (x :: l) now))
            | _ => (Returned None, cache)
            end
        end
  end.

(** [async function fetchXirsysIceServers()]: the value it resolves with
    ([None] is [null]), the cache afterwards and the requests it made. *)
Definition fetchXirsysIceServers (env : Env) (now : Z) (net : FetchOutcome)
    (cache : option XirsysCache)
    : option (list Json) * option XirsysCache * list FetchRequest :=
  if xirsys_unconfigured env then (None, cache, [])
  else
    match cache with
    | Some c =>
        if cache_fresh env now c then (Some (iceServers c), cache, [])
        else
          let req := mkRequest (XIRSYS_CHANNEL env) (XIRSYS_IDENT env) (XIRSYS_SECRET env) in
          match xirsys_try now net cache with
          | (Returned (Some r), cache') => (r, cache', [req])
          | (Returned None, cache') => (None, cache', [req])
          | (Thrown _, cache') => (None, cache', [req])
          end
    | None =>
        let req := mkRequest (XIRSYS_CHANNEL env) (XIRSYS_IDENT env) (XIRSYS_SECRET env) in
        match xirsys_try now net cache with
        | (Returned (Some r), cache') => (r, cache', [req])
        | (Returned None, cache') => (None, cache', [req])
        | (Thrown _, cache') => (None, cache', [req])
        end
    end.

(** The reply of an HTTP handler. *)
Record ConfigResponse : Type := mkConfigResponse {
  status : Z;
  body_iceServers : list Json;
  body_publicBaseUrl : string
}.

(** [app.get("/config", async (_req, res) => ...)]: the reply, the cache
    afterwards and the requests made to the issuer. *)
Definition get_config (env : Env) (now : Z) (net : FetchOutcome)
    (cache : option XirsysCache)
    : ConfigResponse * option XirsysCache * list FetchRequest :=
  let iceServers := stun_servers env in
  let '(xirsysServers, cache', reqs) := fetchXirsysIceServers env now net cache in
  let iceServers :=
    match xirsysServers with
    | Some (x :: l) => iceServers ++ (x :: l)
    | _ => iceServers ++ static_turn_servers env
    end in
  (mkConfigResponse 200 iceServers (PUBLIC_BASE_URL env), cache', reqs).

(** ** Runs of the server *)

(** What can happen to the server: a connection is accepted, a connected
    client sends one of the events, a connection closes, or [GET /config]
    is served at time [now] with the issuer answering [net]. *)
Inductive Event : Type :=
| Connection (s : string)
| JoinRoom (s roomId : string) (displayName : option string)
| Relay (k : RelayKind) (s roomId : string) (payload : Json)
| LeaveRoom (s roomId : string)
| Disconnect (s : string)
| GetConfig (now : Z) (net : FetchOutcome).

Definition handle (env : Env) (ev : Event) (st : ServerState)
    : ServerState * list Output :=
  match ev with
  | Connection s => on_connection s st
  | JoinRoom s roomId displayName => on_join_room s roomId displayName st
  | Relay k s roomId payload => on_relay k s roomId payload st
  | LeaveRoom s roomId => on_leave_room s roomId st
  | Disconnect s => on_disconnect s st
  | GetConfig now net =>
      (with_cache (get_config env now net (xirsysCache st)).1.2 st, [])
  end.

(** Connection identifiers are never reused, and only a connected socket
    sends events or closes. *)
Definition enabled (st : ServerState) (ev : Event) : bool :=
  match ev with
  | Connection s => bool_decide (io_sockets st !! s = None)
  | JoinRoom s _ _ | Relay _ s _ _ | LeaveRoom s _ | Disconnect s => is_connected st s
  | GetConfig _ _ => true
  end.

Inductive reachable (env : Env) : ServerState → Prop :=
| reachable_init : reachable env initial_state
| reachable_step st ev :
    reachable env st → enabled st ev = true → reachable env (handle env ev st).1.

(** Running a list of events from a state, collecting what is emitted. *)
Fixpoint run (env : Env) (evs : list Event) (st : ServerState)
    : ServerState * list Output :=
  match evs with
  | [] => (st, [])
  | ev :: evs' =>
      let '(st1, out1) := handle env ev st in
      let '(st2, out2) := run env evs' st1 in
      (st2, out1 ++ out2)
  end.

(** The members of a room according to the registry. *)
Definition members (st : ServerState) (roomId : string) : list string :=
  JsMap.keys (default [] (roomIdToParticipants st !! roomId)).

(** ** Auxiliary definitions for the properties *)

(** What holds of every reachable state. *)
Record invariant (env : Env) (st : ServerState) : Prop := mkInvariant {
  (** a room holds at most two members, each once, and has a non-empty key *)
  inv_room : ∀ r ps, roomIdToParticipants st !! r = Some ps →
    r ≠ "" ∧ (JsMap.size ps ≤ 2)%nat ∧ NoDup (JsMap.keys ps);
  (** transport rooms hold connected sockets, each once *)
  inv_room_connected : ∀ r x, x ∈ room_sockets st r → is_connected st x = true;
  inv_room_nodup : ∀ r, NoDup (room_sockets st r);
  (** a socket in transport room [r] is a member of [r] in the registry, or
      [r] is the socket's own room *)
  inv_room_member : ∀ r x, x ∈ room_sockets st r → x ∈ members st r ∨ x = r;
  (** a connected member of [r] is in transport room [r] *)
  inv_member_room : ∀ r x,
    x ∈ members st r → is_connected st x = true → x ∈ room_sockets st r;
  (** members are connections the server has accepted *)
  inv_member_known : ∀ r x, x ∈ members st r → is_Some (io_sockets st !! x);
  (** the cache is only ever filled when the issuer is configured, with a
      non-empty list *)
  inv_cache : ∀ c, xirsysCache st = Some c →
    xirsys_unconfigured env = false ∧ iceServers c ≠ []
}.

(** The state after an accepted join. *)
Definition joined_state (s roomId name : string) (st : ServerState) : ServerState :=
  mkState
    (<[roomId := JsMap.set s name (default [] (roomIdToParticipants st !! roomId))]>
       (roomIdToParticipants st))
    (xirsysCache st)
    (<[roomId := JsSet.add s (room_sockets st roomId)]> (io_rooms st))
    (alter (λ sock, mkSocket (connected sock) (Some roomId) (Some name)) s (io_sockets st)).

(** The state after [leave_room] with a non-empty [roomId]. *)
Definition left_state (s roomId : string) (st : ServerState) : ServerState :=
  with_participants (delete_participant s roomId (roomIdToParticipants st))
    (socket_leave s roomId st).

(** The registry after the ["disconnect"] handler, given the room recorded
    in [socket.data.roomId]. *)
Definition registry_after_disconnect (s : string) (recorded : option string)
    (reg : gmap string (list (string * string))) : gmap string (list (string * string)) :=
  match recorded with
  | Some roomId =>
      if decide (roomId = "") then reg
      else
        let reg1 := delete_participant s roomId reg in
        match reg1 !! roomId with
        | Some participants =>
            if decide (JsMap.size participants = 0) then delete roomId reg1 else reg1
        | None => reg1
        end
  | None => reg
  end.

Definition recorded_room (st : ServerState) (s : string) : option string :=
  io_sockets st !! s ≫= data_roomId.

(** Every event of the run is enabled when its turn comes. *)
Fixpoint valid_run (env : Env) (evs : list Event) (st : ServerState) : bool :=
  match evs with
  | [] => true
  | ev :: evs' => enabled st ev && valid_run env evs' (handle env ev st).1
  end.

(** The rooms of the registry that list connection [s] as a member. *)
Definition rooms_of (st : ServerState) (s : string) : list string :=
  omap (λ '(r, ps), if decide (s ∈ JsMap.keys ps) then Some r else None)
    (map_to_list (roomIdToParticipants st)).

(** A join is disciplined when the connection is, at that moment, a
    member of no room other than the one it asks for. *)
Definition join_allowed (st : ServerState) (ev : Event) : bool :=
  match ev with
  | JoinRoom s roomId _ => forallb (λ r, bool_decide (r = roomId)) (rooms_of st s)
  | _ => true
  end.

(** The states reached by runs in which every join is disciplined. *)
Inductive reachable_disciplined (env : Env) : ServerState → Prop :=
| disciplined_init : reachable_disciplined env initial_state
| disciplined_step st ev :
    reachable_disciplined env st →
    enabled st ev = true → join_allowed st ev = true →
    reachable_disciplined env (handle env ev st).1.

Fixpoint disciplined_run (env : Env) (evs : list Event) (st : ServerState) : bool :=
  match evs with
  | [] => true
  | ev :: evs' =>
      enabled st ev && join_allowed st ev && disciplined_run env evs' (handle env ev st).1
  end.



(** The credential fetch succeeds with the descriptors [servers]. *)
Definition fetch_success (net : FetchOutcome) (servers : list Json) : Prop :=
  ∃ res data x l,
    net = Returned res ∧ res_ok res = true ∧ res_json res = Returned data
    ∧ json_field "iceServers" (json_field "v" (Some data)) = Some (JArr (x :: l))
    ∧ servers = x :: l.

Definition xirsys_request (env : Env) : FetchRequest :=
  mkRequest (XIRSYS_CHANNEL env) (XIRSYS_IDENT env) (XIRSYS_SECRET env).

(** ** Sample inputs *)

(** An environment with nothing set. *)
Definition env0 : Env :=
  mkEnv None None None None "" "" "" 600 "http://localhost:8080".

Definition sdp0 : Json := JObj [("type", JStr "offer"); ("sdp", JStr "v=0")].

(** Connections A, B and C are accepted; A and B join room "x". *)
Definition st_full : ServerState :=
  (run env0 [Connection "A"; Connection "B"; Connection "C";
             JoinRoom "A" "x" (Some "alice"); JoinRoom "B" "x" None]
     initial_state).1.

(** An environment in which the issuer is configured. *)
Definition env_xirsys : Env :=
  mkEnv (Some "stun:a.example:3478, stun:b.example:3478") None None None
    "ident" "secret" "channel" 600 "http://localhost:8080".

(** A relay descriptor and an answer of the issuer that carries it. *)
Definition turn0 : Json :=
  JObj [("urls", JStr "turn:relay.example:3478"); ("username", JStr "u");
        ("credential", JStr "p")].

Definition net_ok : FetchOutcome :=
  Returned (mkResponse true 200 (Returned "")
              (Returned (JObj [("v", JObj [("iceServers", JArr [turn0])])]))).

(** ** The rest of the server and its client *)

(** [process.env.X || fallback] *)
Definition env_or (raw : option string) (fallback : string) : string :=
  match raw with
  | Some v => if truthy v then v else fallback
  | None => fallback
  end.

(** The comma-separated lists of the configuration:
    [raw.split(",").map((s) => s.trim()).filter(Boolean)]. *)
Definition parse_list (raw : string) : list string :=
  List.filter truthy (trim <$> split_comma raw).

(** [s.includes(",")] *)
Definition includes_comma (s : string) : bool :=
  existsb (λ c, Ascii.eqb c ",") (String.list_ascii_of_string s).

(** [cors]' [origin] option: one origin or a list of origins. *)
Inductive CorsOrigin : Type :=
| origin_single (origin : string)
| origin_list (origins : list string).

(** [const RAW_CORS_ORIGIN = (process.env.CORS_ORIGIN || "*").trim()] *)
Definition RAW_CORS_ORIGIN (raw : option string) : string :=
  trim (env_or raw "*").

(** [const CORS_ORIGIN = RAW_CORS_ORIGIN.includes(",") ? ... : RAW_CORS_ORIGIN] *)
Definition CORS_ORIGIN (raw : option string) : CorsOrigin :=
  if includes_comma (RAW_CORS_ORIGIN raw) then origin_list (parse_list (RAW_CORS_ORIGIN raw))
  else origin_single (RAW_CORS_ORIGIN raw).

Fixpoint drop_slashes (l : list ascii) : list ascii :=
  match l with
  | [] => []
  | c :: l' => if Ascii.eqb c "/" then drop_slashes l' else l
  end.

(** [s.replace(/\/+$/, "")]: the string without the slashes at its end. *)
Definition strip_trailing_slashes (s : string) : string :=
  String.string_of_list_ascii (rev (drop_slashes (rev (String.list_ascii_of_string s)))).

(** [const XIRSYS_API_PATH =
      (process.env.XIRSYS_API_PATH || "https://global.xirsys.net").replace(/\/+$/, "")] *)
Definition XIRSYS_API_PATH (raw : option string) : string :=
  strip_trailing_slashes (env_or raw "https://global.xirsys.net").

(** The client's
    [const SERVER_URL =
      (import.meta.env.VITE_SERVER_URL || "http://localhost:8080").replace(/\/+$/, "")] *)
Definition SERVER_URL (raw : option string) : string :=
  strip_trailing_slashes (env_or raw "http://localhost:8080").

(** [app.get("/config", ...)] of the earlier revision of the server, which
    has no credential issuer. *)
Definition get_config_v1 (env : Env) : ConfigResponse :=
  let iceServers := stun_servers env in
  let iceServers := iceServers ++ static_turn_servers env in
  mkConfigResponse 200 iceServers (PUBLIC_BASE_URL env).

(** *** Recording upload *)





(** *** The client *)

(** [join] of the client application: without a room or a name it sends
    nothing, and neither when the local media cannot be opened ([media] is
    false); otherwise it opens a connection, which the server accepts under
    the identifier [s], and sends [join_room]. *)
Definition client_join (media : bool) (s roomId displayName : string) : list Event :=
  if negb (truthy roomId) || negb (truthy displayName) then []
  else if negb media then []
  else [Connection s; JoinRoom s roomId (Some displayName)].



(** Members are connected and their recorded room is the room they are in. *)
Definition members_live (st : ServerState) : Prop :=
  ∀ r s, s ∈ members st r → is_connected st s = true ∧ recorded_room st s = Some r.

(** *** Reading events *)

(** The connection an event of the run comes from. *)
Definition sender (ev : Event) : option string :=
  match ev with
  | Connection s | JoinRoom s _ _ | Relay _ s _ _ | LeaveRoom s _ | Disconnect s => Some s
  | GetConfig _ _ => None
  end.

(** The connection an emitted event is about: [socketId] or [from]. *)
Definition subject (ev : ServerEvent) : option string :=
  match ev with
  | peer_joined s _ | peer_left s | offer s _ | answer s _ | ice_candidate s _ => Some s
  | error_message _ | room_full _ | joined_room _ _ => None
  end.

Definition is_leave (ev : Event) : bool :=
  match ev with
  | LeaveRoom _ _ => true
  | _ => false
  end.

Definition is_config (ev : Event) : bool :=
  match ev with
  | GetConfig _ _ => true
  | _ => false
  end.

(** * Properties *)

(** ** Facts about the containers *)

Section containers.
Context {V : Type}.
Implicit Types (m : list (string * V)) (k : string) (v : V).

Lemma keys_set m k v x :
  x ∈ JsMap.keys (JsMap.set k v m) ↔ x = k ∨ x ∈ JsMap.keys m.
Proof.
  unfold JsMap.keys. induction m as [|[k' v'] m IH]; simpl.
  - rewrite list_elem_of_singleton. set_solver.
  - case_decide; subst; simpl; rewrite !elem_of_cons; [naive_solver|].
    rewrite IH. naive_solver.
Qed.

Lemma size_set_le m k v :
  (JsMap.size (JsMap.set k v m) ≤ S (JsMap.size m))%nat.
Proof.
  unfold JsMap.size. induction m as [|[k' v'] m IH]; simpl; [lia|].
  case_decide; simpl; lia.
Qed.

Lemma NoDup_keys_set m k v :
  NoDup (JsMap.keys m) → NoDup (JsMap.keys (JsMap.set k v m)).
Proof.
  induction m as [|[k' v'] m IH]; simpl.
  - intros _. apply NoDup_singleton.
  - rewrite NoDup_cons. intros [Hk Hm].
    case_decide; subst; simpl.
    + by apply NoDup_cons.
    + apply NoDup_cons. split; [|by apply IH].
      intros [?|?]%keys_set; [congruence|done].
Qed.

Lemma keys_delete m k x :
  x ∈ JsMap.keys (JsMap.delete k m) ↔ x ≠ k ∧ x ∈ JsMap.keys m.
Proof.
  unfold JsMap.keys. induction m as [|[k' v'] m IH]; simpl.
  - set_solver.
  - case_decide; subst; simpl; rewrite ?elem_of_cons, IH; naive_solver.
Qed.

Lemma size_delete_le m k : (JsMap.size (JsMap.delete k m) ≤ JsMap.size m)%nat.
Proof.
  unfold JsMap.size. induction m as [|[k' v'] m IH]; simpl; [lia|].
  case_decide; simpl; lia.
Qed.

Lemma NoDup_keys_delete m k :
  NoDup (JsMap.keys m) → NoDup (JsMap.keys (JsMap.delete k m)).
Proof.
  induction m as [|[k' v'] m IH]; simpl; [done|].
  rewrite NoDup_cons. intros [Hk Hm].
  case_decide; subst; simpl; [by apply IH|].
  apply NoDup_cons. split; [|by apply IH].
  intros [_ ?]%keys_delete. done.
Qed.


(** The entries of the others are the same before and after [set]. *)
Lemma others_set m k v :
  List.filter (λ p, bool_decide (p.1 ≠ k)) (JsMap.set k v m)
  = List.filter (λ p, bool_decide (p.1 ≠ k)) m.
Proof.
  induction m as [|[k' v'] m IH]; simpl.
  - rewrite bool_decide_eq_false_2; [done|]. intros H. by apply H.
  - case_decide as Hk; subst; simpl.
    + rewrite !bool_decide_eq_false_2; [done|]. intros H; by apply H.
    + by rewrite IH.
Qed.

End containers.

Lemma elem_of_add x s l : x ∈ JsSet.add s l ↔ x = s ∨ x ∈ l.
Proof.
  unfold JsSet.add. case_decide.
  - naive_solver.
  - rewrite elem_of_app, list_elem_of_singleton. naive_solver.
Qed.

Lemma NoDup_add s l : NoDup l → NoDup (JsSet.add s l).
Proof.
  unfold JsSet.add. intros Hl. case_decide; [done|].
  apply NoDup_app. split_and!; [done| |apply NoDup_singleton].
  intros x Hx ->%list_elem_of_singleton. done.
Qed.

Lemma elem_of_remove x s l : x ∈ JsSet.remove s l ↔ x ≠ s ∧ x ∈ l.
Proof.
  unfold JsSet.remove. induction l as [|y l IH]; simpl.
  - set_solver.
  - case_bool_decide; rewrite ?elem_of_cons, IH; naive_solver.
Qed.

Lemma NoDup_remove s l : NoDup l → NoDup (JsSet.remove s l).
Proof.
  induction l as [|y l IH]; simpl; [done|].
  rewrite NoDup_cons. intros [Hy Hl].
  case_bool_decide; [|by apply IH].
  apply NoDup_cons. split; [|by apply IH].
  intros [_ ?]%elem_of_remove. done.
Qed.

Lemma remove_not_member s l : s ∉ l → JsSet.remove s l = l.
Proof.
  induction l as [|y l IH]; simpl; [done|].
  rewrite not_elem_of_cons. intros [Hne Hl].
  rewrite bool_decide_eq_true_2 by congruence. by rewrite IH.
Qed.

(** ** How the Socket.IO operations change what the handlers observe *)

Lemma room_sockets_join s room st r :
  room_sockets (socket_join s room st) r
  = if decide (r = room) then JsSet.add s (room_sockets st room) else room_sockets st r.
Proof.
  unfold room_sockets, socket_join; simpl.
  case_decide; subst; [by rewrite lookup_insert_eq | by rewrite lookup_insert_ne].
Qed.

Lemma room_sockets_leave s room st r :
  room_sockets (socket_leave s room st) r
  = if decide (r = room) then JsSet.remove s (room_sockets st r) else room_sockets st r.
Proof.
  unfold room_sockets, socket_leave; simpl.
  case_decide; subst.
  - rewrite lookup_alter_eq. by destruct (io_rooms st !! room).
  - by rewrite lookup_alter_ne.
Qed.

Lemma room_sockets_close s st r :
  room_sockets (socket_close s st) r = JsSet.remove s (room_sockets st r).
Proof.
  unfold room_sockets, socket_close; simpl.
  rewrite lookup_fmap. by destruct (io_rooms st !! r).
Qed.

Lemma is_connected_close s st x :
  is_connected (socket_close s st) x
  = if decide (x = s) then false else is_connected st x.
Proof.
  unfold is_connected, socket_close; simpl.
  case_decide; subst.
  - rewrite lookup_alter_eq. by destruct (io_sockets st !! s).
  - by rewrite lookup_alter_ne.
Qed.

Lemma is_connected_alter_data f s st x :
  (∀ sock, connected (f sock) = connected sock) →
  is_connected (with_sockets (alter f s (io_sockets st)) st) x = is_connected st x.
Proof.
  intros Hf. unfold is_connected; simpl.
  destruct (decide (x = s)); subst.
  - rewrite lookup_alter_eq. destruct (io_sockets st !! s); simpl; [apply Hf|done].
  - by rewrite lookup_alter_ne.
Qed.

(** ** The registry after [participants?.delete(socket.id)] *)

Lemma lookup_delete_participant s roomId reg r :
  delete_participant s roomId reg !! r
  = if decide (r = roomId) then JsMap.delete s <$> reg !! r else reg !! r.
Proof.
  unfold delete_participant.
  destruct (reg !! roomId) as [ps|] eqn:E; case_decide; subst.
  - by rewrite lookup_insert_eq, E.
  - by rewrite lookup_insert_ne.
  - by rewrite E.
  - done.
Qed.

Lemma members_delete_participant s roomId st r x :
  x ∈ members (with_participants (delete_participant s roomId (roomIdToParticipants st)) st) r
  ↔ x ∈ members st r ∧ ¬ (r = roomId ∧ x = s).
Proof.
  unfold members; simpl. rewrite lookup_delete_participant.
  case_decide; subst.
  - destruct (roomIdToParticipants st !! roomId); simpl.
    + rewrite keys_delete. naive_solver.
    + set_solver.
  - naive_solver.
Qed.

(** ** The invariant of reachable states *)

Lemma invariant_initial env : invariant env initial_state.
Proof.
  split; unfold members, room_sockets; simpl.
  - intros r ps. by rewrite lookup_empty.
  - intros r x. rewrite lookup_empty; simpl. by intros ?%elem_of_nil.
  - intros r. rewrite lookup_empty; simpl. apply NoDup_nil_2.
  - intros r x. rewrite lookup_empty; simpl. by intros ?%elem_of_nil.
  - intros r x. rewrite lookup_empty; simpl. by intros ?%elem_of_nil.
  - intros r x. rewrite lookup_empty; simpl. by intros ?%elem_of_nil.
  - done.
Qed.

Lemma is_connected_is_Some st x : is_connected st x = true → is_Some (io_sockets st !! x).
Proof. unfold is_connected. destruct (io_sockets st !! x); [eauto|done]. Qed.

Lemma invariant_connection env s st :
  invariant env st → io_sockets st !! s = None →
  invariant env (on_connection s st).1.
Proof.
  intros [Hroom Hconn Hnodup Hrm Hmr Hknown Hcache] Hfresh.
  assert (Hc : ∀ x, is_connected (on_connection s st).1 x
                    = if decide (x = s) then true else is_connected st x).
  { intros x. unfold is_connected; simpl. case_decide; subst.
    - by rewrite lookup_insert_eq.
    - by rewrite lookup_insert_ne. }
  assert (Hr : ∀ r, room_sockets (on_connection s st).1 r
                    = if decide (r = s) then JsSet.add s (room_sockets st s)
                      else room_sockets st r).
  { intros r. unfold on_connection; simpl. by rewrite room_sockets_join. }
  split.
  - exact Hroom.
  - intros r x. rewrite Hr, Hc. case_decide; subst.
    + rewrite elem_of_add. intros [->|Hx]; [by rewrite decide_True|].
      case_decide; [done|eauto].
    + intros Hx. case_decide; [done|eauto].
  - intros r. rewrite Hr. case_decide; [apply NoDup_add|]; apply Hnodup.
  - intros r x. rewrite Hr. case_decide; subst.
    + rewrite elem_of_add. intros [->|Hx]; [by right|]. by apply Hrm.
    + apply Hrm.
  - intros r x Hx. rewrite Hc, Hr. case_decide as Hxs; subst.
    + apply Hknown in Hx. rewrite Hfresh in Hx. by destruct Hx.
    + intros Hcx. case_decide; subst; [apply elem_of_add; right|]; by apply Hmr.
  - intros r x Hx. simpl. destruct (decide (x = s)); subst.
    + rewrite lookup_insert_eq. eauto.
    + rewrite lookup_insert_ne by done. by eapply Hknown.
  - exact Hcache.
Qed.

(** *** Joining *)


Lemma on_join_room_full s roomId displayName st :
  roomId ≠ "" →
  (2 ≤ JsMap.size (default [] (roomIdToParticipants st !! roomId)))%nat →
  on_join_room s roomId displayName st = (st, [(s, room_full roomId)]).
Proof.
  intros Hne Hfull. unfold on_join_room.
  rewrite decide_False by done. by rewrite decide_True.
Qed.

Lemma on_join_room_accepted s roomId displayName st :
  roomId ≠ "" →
  (JsMap.size (default [] (roomIdToParticipants st !! roomId)) < 2)%nat →
  on_join_room s roomId displayName st
  = (joined_state s roomId (or_guest displayName) st,
     ((λ m, (m, peer_joined s (or_guest displayName)))
        <$> JsSet.remove s (JsSet.add s (room_sockets st roomId)))
     ++ [(s, joined_room roomId
               (List.filter (λ p, bool_decide (p.1 ≠ s))
                  (default [] (roomIdToParticipants st !! roomId))))]).
Proof.
  intros Hne Hlt. unfold on_join_room.
  rewrite decide_False by done. rewrite decide_False by lia.
  unfold broadcast, emit, room_sockets, joined_state; simpl.
  rewrite lookup_insert_eq; simpl. by rewrite others_set.
Qed.

Lemma members_joined s roomId name st r x :
  x ∈ members (joined_state s roomId name st) r
  ↔ x ∈ members st r ∨ (r = roomId ∧ x = s).
Proof.
  unfold members, joined_state; simpl.
  destruct (decide (r = roomId)); subst.
  - rewrite lookup_insert_eq; simpl. rewrite keys_set. naive_solver.
  - rewrite lookup_insert_ne by done. naive_solver.
Qed.

Lemma room_sockets_joined s roomId name st r :
  room_sockets (joined_state s roomId name st) r
  = if decide (r = roomId) then JsSet.add s (room_sockets st roomId) else room_sockets st r.
Proof.
  unfold room_sockets, joined_state; simpl.
  case_decide; subst; [by rewrite lookup_insert_eq | by rewrite lookup_insert_ne].
Qed.

Lemma is_connected_joined s roomId name st x :
  is_connected (joined_state s roomId name st) x = is_connected st x.
Proof. by apply (is_connected_alter_data _ s st). Qed.

Lemma invariant_join env s roomId displayName st :
  invariant env st → is_connected st s = true →
  invariant env (on_join_room s roomId displayName st).1.
Proof.
  intros Hinv Hs. unfold on_join_room.
  case_decide as Hne; [done|]. case_decide as Hsz; [done|].
  change (invariant env (joined_state s roomId (or_guest displayName) st)).
  destruct Hinv as [Hroom Hconn Hnodup Hrm Hmr Hknown Hcache].
  split.
  - intros r ps. simpl. destruct (decide (r = roomId)); subst.
    + rewrite lookup_insert_eq. intros [= <-]. split_and!; [done| |].
      * pose proof (size_set_le (default [] (roomIdToParticipants st !! roomId))
                      s (or_guest displayName)). lia.
      * apply NoDup_keys_set.
        destruct (roomIdToParticipants st !! roomId) eqn:E; simpl;
          [by eapply Hroom | apply NoDup_nil_2].
    + rewrite lookup_insert_ne by done. apply Hroom.
  - intros r x. rewrite room_sockets_joined, is_connected_joined.
    case_decide; subst; [|apply Hconn].
    rewrite elem_of_add. intros [->|Hx]; [done|eauto].
  - intros r. rewrite room_sockets_joined.
    case_decide; [apply NoDup_add|]; apply Hnodup.
  - intros r x. rewrite room_sockets_joined, members_joined.
    case_decide; subst.
    + rewrite elem_of_add. intros [->|Hx]; [by left; right|].
      destruct (Hrm _ _ Hx); [by left; left|by right].
    + intros Hx. destruct (Hrm _ _ Hx); [by left; left|by right].
  - intros r x. rewrite room_sockets_joined, members_joined, is_connected_joined.
    intros [Hx|[-> ->]] Hcx.
    + case_decide; subst; [apply elem_of_add; right|]; by apply Hmr.
    + rewrite decide_True by done. apply elem_of_add. by left.
  - intros r x. rewrite members_joined. simpl. intros [Hx|[-> ->]].
    + destruct (decide (x = s)); subst.
      * rewrite lookup_alter_eq. apply is_connected_is_Some in Hs.
        destruct Hs as [? ->]. simpl. eauto.
      * rewrite lookup_alter_ne by done. by eapply Hknown.
    + rewrite lookup_alter_eq. apply is_connected_is_Some in Hs.
      destruct Hs as [? ->]. simpl. eauto.
  - exact Hcache.
Qed.

(** *** Leaving *)

Lemma on_leave_room_nonempty s roomId st :
  roomId ≠ "" →
  on_leave_room s roomId st
  = (left_state s roomId st,
     (λ m, (m, peer_left s)) <$> JsSet.remove s (JsSet.remove s (room_sockets st roomId))).
Proof.
  intros Hne. unfold on_leave_room. rewrite decide_False by done.
  unfold left_state, broadcast. do 2 f_equal.
  change (room_sockets (with_participants _ ?st') ?r) with (room_sockets st' r).
  rewrite room_sockets_leave. by rewrite decide_True.
Qed.

Lemma reg_wf_delete_participant s roomId (reg : gmap string (list (string * string))) :
  (∀ r ps, reg !! r = Some ps →
     r ≠ "" ∧ (JsMap.size ps ≤ 2)%nat ∧ NoDup (JsMap.keys ps)) →
  ∀ r ps, delete_participant s roomId reg !! r = Some ps →
     r ≠ "" ∧ (JsMap.size ps ≤ 2)%nat ∧ NoDup (JsMap.keys ps).
Proof.
  intros Hreg r ps. rewrite lookup_delete_participant.
  case_decide; subst; [|apply Hreg].
  destruct (reg !! roomId) as [ps0|] eqn:E; simpl; [|done].
  intros [= <-]. destruct (Hreg _ _ E) as (? & ? & ?).
  split_and!; [done| |by apply NoDup_keys_delete].
  pose proof (size_delete_le ps0 s). lia.
Qed.

Lemma invariant_leave env s roomId st :
  invariant env st → invariant env (on_leave_room s roomId st).1.
Proof.
  intros Hinv. unfold on_leave_room. case_decide as Hne; [done|].
  change (invariant env (left_state s roomId st)).
  destruct Hinv as [Hroom Hconn Hnodup Hrm Hmr Hknown Hcache].
  assert (Hr : ∀ r, room_sockets (left_state s roomId st) r
                    = if decide (r = roomId) then JsSet.remove s (room_sockets st r)
                      else room_sockets st r).
  { intros r. apply room_sockets_leave. }
  assert (Hm : ∀ r x, x ∈ members (left_state s roomId st) r
                      ↔ x ∈ members st r ∧ ¬ (r = roomId ∧ x = s)).
  { intros r x. apply (members_delete_participant s roomId (socket_leave s roomId st)). }
  split.
  - by apply reg_wf_delete_participant.
  - intros r x. rewrite Hr. case_decide; subst; [|apply Hconn].
    intros [_ Hx]%elem_of_remove. by eapply Hconn.
  - intros r. rewrite Hr. case_decide; [apply NoDup_remove|]; apply Hnodup.
  - intros r x. rewrite Hr, Hm. case_decide; subst.
    + intros [Hxs Hx]%elem_of_remove. destruct (Hrm _ _ Hx); naive_solver.
    + intros Hx. destruct (Hrm _ _ Hx); naive_solver.
  - intros r x. rewrite Hr, Hm. intros [Hx Hn] Hcx.
    case_decide; subst; [apply elem_of_remove; split; [naive_solver|]|]; by apply Hmr.
  - intros r x. rewrite Hm. intros [Hx _]. by eapply Hknown.
  - exact Hcache.
Qed.

(** *** Disconnecting *)

Lemma recorded_room_close s st x :
  recorded_room (socket_close s st) x = recorded_room st x.
Proof.
  unfold recorded_room, socket_close; simpl.
  destruct (decide (x = s)); subst.
  - rewrite lookup_alter_eq. by destruct (io_sockets st !! s).
  - by rewrite lookup_alter_ne.
Qed.

Lemma on_disconnect_state s st :
  (on_disconnect s st).1
  = with_participants
      (registry_after_disconnect s (recorded_room st s) (roomIdToParticipants st))
      (socket_close s st).
Proof.
  unfold on_disconnect.
  change (io_sockets (socket_close s st) !! s ≫= data_roomId)
    with (recorded_room (socket_close s st) s).
  rewrite recorded_room_close. unfold registry_after_disconnect.
  destruct (recorded_room st s) as [roomId|]; [|by destruct st].
  case_decide; [by destruct st|]. simpl.
  destruct (delete_participant s roomId (roomIdToParticipants st) !! roomId);
    [case_decide|]; done.
Qed.

Lemma on_disconnect_outputs s st :
  (on_disconnect s st).2
  = match recorded_room st s with
    | Some roomId =>
        if decide (roomId = "") then []
        else (λ m, (m, peer_left s))
               <$> JsSet.remove s (JsSet.remove s (room_sockets st roomId))
    | None => []
    end.
Proof.
  unfold on_disconnect.
  change (io_sockets (socket_close s st) !! s ≫= data_roomId)
    with (recorded_room (socket_close s st) s).
  rewrite recorded_room_close.
  destruct (recorded_room st s) as [roomId|]; [|done].
  case_decide; [done|]. simpl.
  assert (room_sockets
            (with_participants (delete_participant s roomId (roomIdToParticipants st))
               (socket_close s st)) roomId
          = JsSet.remove s (room_sockets st roomId)) as Hr
    by apply room_sockets_close.
  destruct (delete_participant s roomId (roomIdToParticipants st) !! roomId);
    [case_decide|]; simpl; unfold broadcast; by rewrite Hr.
Qed.

(** What the handler does to the registry, room by room. *)
Lemma lookup_registry_after_disconnect s recorded reg r :
  registry_after_disconnect s recorded reg !! r
  = if decide (recorded = Some r ∧ r ≠ "") then
      match reg !! r with
      | Some ps => if decide (JsMap.size (JsMap.delete s ps) = 0) then None
                   else Some (JsMap.delete s ps)
      | None => None
      end
    else reg !! r.
Proof.
  unfold registry_after_disconnect.
  destruct recorded as [roomId|]; [|by rewrite decide_False by naive_solver].
  destruct (decide (roomId = "")) as [->|Hne].
  { by rewrite decide_False by naive_solver. }
  destruct (decide (r = roomId)) as [->|Hr].
  - rewrite decide_True by done. rewrite lookup_delete_participant, decide_True by done.
    destruct (reg !! roomId) as [ps|] eqn:E; simpl.
    + case_decide.
      * by rewrite lookup_delete_eq.
      * by rewrite lookup_delete_participant, decide_True, E.
    + by rewrite lookup_delete_participant, decide_True, E.
  - rewrite decide_False by naive_solver.
    assert (delete_participant s roomId reg !! r = reg !! r) as Hd.
    { by rewrite lookup_delete_participant, decide_False. }
    destruct (delete_participant s roomId reg !! roomId); [case_decide|]; try done.
    by rewrite lookup_delete_ne.
Qed.

Lemma members_after_disconnect s st r x :
  x ∈ members (on_disconnect s st).1 r
  ↔ x ∈ members st r ∧ ¬ (recorded_room st s = Some r ∧ r ≠ "" ∧ x = s).
Proof.
  rewrite on_disconnect_state. unfold members; simpl.
  rewrite lookup_registry_after_disconnect.
  case_decide as Hrec.
  - destruct (roomIdToParticipants st !! r) as [ps|]; simpl; [|set_solver].
    case_decide as Hsz; simpl.
    + unfold JsMap.size in Hsz. apply length_zero_iff_nil in Hsz.
      pose proof (keys_delete ps s x) as Hk. rewrite Hsz in Hk.
      unfold JsMap.keys in Hk at 1. simpl in Hk. set_solver.
    + rewrite keys_delete. naive_solver.
  - naive_solver.
Qed.

Lemma invariant_disconnect env s st :
  invariant env st → invariant env (on_disconnect s st).1.
Proof.
  intros [Hroom Hconn Hnodup Hrm Hmr Hknown Hcache].
  assert (Hr : ∀ r, room_sockets (on_disconnect s st).1 r
                    = JsSet.remove s (room_sockets st r)).
  { intros r. rewrite on_disconnect_state. apply room_sockets_close. }
  assert (Hc : ∀ x, is_connected (on_disconnect s st).1 x
                    = if decide (x = s) then false else is_connected st x).
  { intros x. rewrite on_disconnect_state. apply is_connected_close. }
  split.
  - intros r ps. rewrite on_disconnect_state; simpl.
    rewrite lookup_registry_after_disconnect. case_decide; [|apply Hroom].
    destruct (roomIdToParticipants st !! r) as [ps0|] eqn:E; [|done].
    case_decide; [done|]. intros [= <-].
    destruct (Hroom _ _ E) as (? & ? & ?).
    split_and!; [done| |by apply NoDup_keys_delete].
    pose proof (size_delete_le ps0 s). lia.
  - intros r x. rewrite Hr, Hc. intros [Hxs Hx]%elem_of_remove.
    rewrite decide_False by done. by eapply Hconn.
  - intros r. rewrite Hr. apply NoDup_remove, Hnodup.
  - intros r x. rewrite Hr, members_after_disconnect.
    intros [Hxs Hx]%elem_of_remove. destruct (Hrm _ _ Hx); naive_solver.
  - intros r x. rewrite Hr, Hc, members_after_disconnect.
    intros [Hx _]. case_decide; [done|]. intros Hcx.
    apply elem_of_remove. split; [done|]. by apply Hmr.
  - intros r x. rewrite members_after_disconnect. intros [Hx _].
    rewrite on_disconnect_state; simpl.
    destruct (decide (x = s)); subst.
    + rewrite lookup_alter_eq. destruct (Hknown _ _ Hx) as [? ->]. simpl. eauto.
    + rewrite lookup_alter_ne by done. by eapply Hknown.
  - rewrite on_disconnect_state. exact Hcache.
Qed.

(** *** Serving the configuration *)

Lemma xirsys_try_cache now net cache c :
  (xirsys_try now net cache).2 = Some c →
  cache = Some c ∨ (iceServers c ≠ [] ∧ fetchedAt c = now).
Proof.
  unfold xirsys_try. destruct net as [res|e]; [|simpl; auto].
  destruct (negb (res_ok res)).
  - destruct (res_text res); simpl; auto.
  - destruct (res_json res) as [data|e]; [|simpl; auto].
    destruct (json_field "iceServers" _) as [[| | | |[|x l]|]|]; simpl; auto.
    intros [= <-]. right. by split.
Qed.

Lemma fetchXirsysIceServers_cache env now net cache c :
  (fetchXirsysIceServers env now net cache).1.2 = Some c →
  cache = Some c ∨ (xirsys_unconfigured env = false ∧ iceServers c ≠ [] ∧ fetchedAt c = now).
Proof.
  unfold fetchXirsysIceServers.
  destruct (xirsys_unconfigured env) eqn:Hcfg; simpl; [auto|].
  assert (∀ cache0,
    (match xirsys_try now net cache0 with
     | (Returned (Some r), cache') =>
         (r, cache', [mkRequest (XIRSYS_CHANNEL env) (XIRSYS_IDENT env) (XIRSYS_SECRET env)])
     | (Returned None, cache') | (Thrown _, cache') =>
         (None, cache', [mkRequest (XIRSYS_CHANNEL env) (XIRSYS_IDENT env) (XIRSYS_SECRET env)])
     end).1.2 = (xirsys_try now net cache0).2) as Htry.
  { intros cache0. by destruct (xirsys_try now net cache0) as [[[[?|]|]|?] ?]. }
  destruct cache as [c0|].
  - destruct (cache_fresh env now c0); simpl; [auto|].
    rewrite Htry. intros [?|[? ?]]%xirsys_try_cache; auto.
  - rewrite Htry. intros [?|[? ?]]%xirsys_try_cache; auto.
Qed.

Lemma get_config_cache env now net cache :
  (get_config env now net cache).1.2 = (fetchXirsysIceServers env now net cache).1.2.
Proof.
  unfold get_config.
  by destruct (fetchXirsysIceServers env now net cache) as [[[[|x l]|] ?] ?].
Qed.

Lemma invariant_config env now net st :
  invariant env st →
  invariant env (with_cache (get_config env now net (xirsysCache st)).1.2 st).
Proof.
  intros [Hroom Hconn Hnodup Hrm Hmr Hknown Hcache].
  split; try done.
  intros c; simpl. rewrite get_config_cache.
  intros [Hc|(? & ? & ?)]%fetchXirsysIceServers_cache; [by apply Hcache|done].
Qed.

(** Every reachable state satisfies the invariant. *)
Lemma reachable_invariant env st : reachable env st → invariant env st.
Proof.
  induction 1 as [|st ev Hst IH Hen]; [apply invariant_initial|].
  destruct ev as [s|s roomId dn|k s roomId payload|s roomId|s|now net]; simpl in *.
  - apply invariant_connection; [done|]. by apply bool_decide_eq_true in Hen.
  - by apply invariant_join.
  - unfold on_relay. by case_decide.
  - by apply invariant_leave.
  - by apply invariant_disconnect.
  - by apply invariant_config.
Qed.

(** ** Runs and reachable states *)

Lemma run_state_cons env ev evs st :
  (run env (ev :: evs) st).1 = (run env evs (handle env ev st).1).1.
Proof.
  simpl. destruct (handle env ev st) as [st1 out1]; simpl.
  by destruct (run env evs st1).
Qed.

Lemma run_reachable env evs st :
  reachable env st → valid_run env evs st = true → reachable env (run env evs st).1.
Proof.
  revert st. induction evs as [|ev evs IH]; intros st Hst Hv; [done|].
  simpl in Hv. apply andb_true_iff in Hv as [Hen Hv].
  rewrite run_state_cons. apply IH; [|done]. by apply reachable_step.
Qed.

Lemma elem_of_rooms_of st s r : r ∈ rooms_of st s ↔ s ∈ members st r.
Proof.
  unfold rooms_of, members. rewrite list_elem_of_omap. split.
  - intros [[r' ps] [Hin Hr]]. apply elem_of_map_to_list in Hin.
    case_decide; [|done]. injection Hr as ->. by rewrite Hin.
  - destruct (roomIdToParticipants st !! r) as [ps|] eqn:E; simpl.
    + intros Hs. exists (r, ps). split; [by apply elem_of_map_to_list|].
      by rewrite decide_True.
    + by intros ?%elem_of_nil.
Qed.

(** * The room registry *)

Lemma st_full_reachable : reachable env0 st_full.
Proof. apply run_reachable; [apply reachable_init | by vm_compute]. Qed.

(** The capacity part of the registry invariant: no room ever holds more
    than two members. *)
Lemma room_capacity env st r ps :
  reachable env st → roomIdToParticipants st !! r = Some ps →
  (JsMap.size ps ≤ 2)%nat.
Proof.
  intros Hst Hr. apply reachable_invariant in Hst.
  by destruct (inv_room _ _ Hst _ _ Hr) as (_ & ? & _).
Qed.

(** C1. The claim is that a room with no member has no entry in the
    registry. After a connection joins room "x" and then sends
    [leave_room] for it, the entry of "x" is still in the registry and
    holds no member; when the connection disconnects instead, the entry
    is deleted. *)
Theorem C1_leave_keeps_empty_room :
  let left :=
    (run env0 [Connection "A"; JoinRoom "A" "x" None; LeaveRoom "A" "x"]
       initial_state).1 in
  let closed :=
    (run env0 [Connection "A"; JoinRoom "A" "x" None; Disconnect "A"]
       initial_state).1 in
  reachable env0 left
  ∧ roomIdToParticipants left !! "x" = Some []
  ∧ reachable env0 closed
  ∧ roomIdToParticipants closed !! "x" = None.
Proof.
  split_and!.
  - apply run_reachable; [apply reachable_init | by vm_compute].
  - by vm_compute.
  - apply run_reachable; [apply reachable_init | by vm_compute].
  - by vm_compute.
Qed.

(** C2. In a reachable state, a join request for a room that has two
    members is answered with [room_full] to the requester alone, and the
    server state is the same afterwards. *)
Theorem C2_room_full_rejected env st s roomId displayName ps :
  reachable env st →
  roomIdToParticipants st !! roomId = Some ps →
  JsMap.size ps = 2%nat →
  on_join_room s roomId displayName st = (st, [(s, room_full roomId)]).
Proof.
  intros Hst Hroom Hsz. apply reachable_invariant in Hst.
  destruct (inv_room _ _ Hst _ _ Hroom) as (Hne & _ & _).
  apply on_join_room_full; [done|]. rewrite Hroom; simpl. lia.
Qed.

Lemma C2_room_full_rejected_witness :
  on_join_room "C" "x" (Some "carol") st_full = (st_full, [("C", room_full "x")]).
Proof.
  apply (C2_room_full_rejected env0 st_full "C" "x" (Some "carol")
           [("A", "alice"); ("B", "Guest")]).
  - apply st_full_reachable.
  - vm_compute. reflexivity.
  - reflexivity.
Defined.

(** ** Broadcasting *)

Lemma elem_of_broadcast st s room ev m ev' :
  (m, ev') ∈ broadcast st s room ev ↔ ev' = ev ∧ m ≠ s ∧ m ∈ room_sockets st room.
Proof.
  unfold broadcast. rewrite list_elem_of_fmap. split.
  - intros [x [[= -> ->] Hx]]. apply elem_of_remove in Hx. naive_solver.
  - intros (-> & Hne & Hm). exists m. split; [done|]. by apply elem_of_remove.
Qed.



Lemma remove_remove s l : JsSet.remove s (JsSet.remove s l) = JsSet.remove s l.
Proof. apply remove_not_member. intros [? _]%elem_of_remove. done. Qed.

(** In a reachable state the sockets of a transport room other than its
    namesake are exactly the connected members of the room. *)
Lemma room_sockets_members env st room m :
  reachable env st → m ≠ room →
  m ∈ room_sockets st room ↔ m ∈ members st room ∧ is_connected st m = true.
Proof.
  intros Hst%reachable_invariant Hne. split.
  - intros Hm. split; [|by eapply inv_room_connected].
    by destruct (inv_room_member _ _ Hst _ _ Hm).
  - intros [Hm Hc]. by eapply inv_member_room.
Qed.

Lemma members_nonempty_key env st room m :
  reachable env st → m ∈ members st room → room ≠ "".
Proof.
  intros Hst%reachable_invariant. unfold members.
  destruct (roomIdToParticipants st !! room) as [ps|] eqn:E; simpl.
  - intros _. by destruct (inv_room _ _ Hst _ _ E).
  - by intros ?%elem_of_nil.
Qed.

(** * The negotiation relay *)

Lemma on_relay_outputs k s roomId payload st :
  roomId ≠ "" →
  (on_relay k s roomId payload st).2 = broadcast st s roomId (relayed k s payload).
Proof. intros Hne. unfold on_relay. by rewrite decide_False. Qed.



(** The delivery in the sample state: B, the other member, receives A's
    offer. *)
Example relay_offer_example :
  on_relay Offer "A" "x" sdp0 st_full = (st_full, [("B", offer "A" sdp0)]).
Proof. by vm_compute. Qed.

(** C10. Relaying an offer, an answer or a candidate leaves the server
    state as it was: the room map with every room's members and display
    names, the data recorded for each connection and the credential
    cache. *)
Theorem C10_relay_frame k s roomId payload st :
  (on_relay k s roomId payload st).1 = st
  ∧ roomIdToParticipants (on_relay k s roomId payload st).1 = roomIdToParticipants st
  ∧ io_sockets (on_relay k s roomId payload st).1 = io_sockets st
  ∧ xirsysCache (on_relay k s roomId payload st).1 = xirsysCache st
  ∧ ∀ env, (handle env (Relay k s roomId payload) st).1 = st.
Proof.
  assert ((on_relay k s roomId payload st).1 = st) as H.
  { unfold on_relay. by case_decide. }
  rewrite H. by split_and!.
Qed.

(** C7. The claim is that a message for a room the registry does not know
    is forwarded to nobody. With A and B connected and no room joined, A's
    offer addressed to the identifier of B is delivered to B, although the
    registry has no room of that name. *)
Lemma C7_counterexample :
  let st := (run env0 [Connection "A"; Connection "B"] initial_state).1 in
  reachable env0 st
  ∧ roomIdToParticipants st !! "B" = None
  ∧ on_relay Offer "A" "B" sdp0 st = (st, [("B", offer "A" sdp0)]).
Proof.
  split_and!.
  - apply run_reachable; [apply reachable_init | by vm_compute].
  - by vm_compute.
  - by vm_compute.
Qed.

(** C7, amended. The relay forwards nothing for an empty [roomId]; when it
    forwards, [roomId] is non-empty and is a room of the registry or the
    identifier of another live connection; a message for a [roomId] that
    is neither is forwarded to nobody. *)
Theorem C7_relay_guard env st k s roomId payload :
  reachable env st →
  let out := (on_relay k s roomId payload st).2 in
  (roomId = "" → out = [])
  ∧ (out ≠ [] →
       roomId ≠ ""
       ∧ (is_Some (roomIdToParticipants st !! roomId)
          ∨ (is_connected st roomId = true ∧ roomId ≠ s)))
  ∧ (roomIdToParticipants st !! roomId = None →
       (is_connected st roomId = true → roomId = s) → out = []).
Proof.
  intros Hst out. pose proof (reachable_invariant _ _ Hst) as Hinv.
  assert (Hempty : roomId = "" → out = []).
  { intros ->. done. }
  assert (Hrec : ∀ m, m ∈ JsSet.remove s (room_sockets st roomId) →
            is_Some (roomIdToParticipants st !! roomId)
            ∨ (is_connected st roomId = true ∧ roomId ≠ s)).
  { intros m [Hms Hm]%elem_of_remove.
    pose proof (inv_room_connected _ _ Hinv _ _ Hm) as Hc.
    destruct (inv_room_member _ _ Hinv _ _ Hm) as [Hmem| ->]; [left|by right].
    unfold members in Hmem.
    destruct (roomIdToParticipants st !! roomId); [eauto|].
    by apply elem_of_nil in Hmem. }
  split_and!; [done| |].
  - intros Hout. destruct (decide (roomId = "")) as [->|Hne]; [done|].
    split; [done|]. subst out. rewrite on_relay_outputs in Hout by done.
    unfold broadcast in Hout.
    destruct (JsSet.remove s (room_sockets st roomId)) as [|m l] eqn:E; [done|].
    apply (Hrec m). apply list_elem_of_here.
  - intros Hnone Hname. destruct (decide (roomId = "")) as [->|Hne]; [done|].
    subst out. rewrite on_relay_outputs by done. unfold broadcast.
    destruct (JsSet.remove s (room_sockets st roomId)) as [|m l] eqn:E; [done|].
    destruct (Hrec m) as [[? Hsome]|[Hc Hs]]; [apply list_elem_of_here| |].
    + by rewrite Hnone in Hsome.
    + by destruct Hs; apply Hname.
Qed.

Lemma C7_relay_guard_witness :
  let out := (on_relay Offer "C" "y" sdp0 st_full).2 in
  ("y" = "" → out = [])
  ∧ (out ≠ [] →
       "y" ≠ ""
       ∧ (is_Some (roomIdToParticipants st_full !! "y")
          ∨ (is_connected st_full "y" = true ∧ "y" ≠ "C")))
  ∧ (roomIdToParticipants st_full !! "y" = None →
       (is_connected st_full "y" = true → "y" = "C") → out = []).
Proof.
  apply (C7_relay_guard env0 st_full Offer "C" "y" sdp0).
  apply st_full_reachable.
Defined.

(** * Joining a room *)



(** * One room per connection *)


Lemma run_reachable_disciplined env evs st :
  reachable_disciplined env st → disciplined_run env evs st = true →
  reachable_disciplined env (run env evs st).1.
Proof.
  revert st. induction evs as [|ev evs IH]; intros st Hst Hv; [done|].
  simpl in Hv. apply andb_true_iff in Hv as [[Hen Hj]%andb_true_iff Hv].
  rewrite run_state_cons. apply IH; [|done]. by apply disciplined_step.
Qed.

Lemma join_allowed_spec st s roomId displayName r :
  join_allowed st (JoinRoom s roomId displayName) = true →
  s ∈ members st r → r = roomId.
Proof.
  simpl. rewrite forallb_forall. intros Hall Hs.
  apply elem_of_rooms_of, list_elem_of_In, Hall in Hs.
  by apply bool_decide_eq_true in Hs.
Qed.




(** * Leaving and disconnecting *)




Lemma recorded_room_leave s roomId st x :
  recorded_room (on_leave_room s roomId st).1 x = recorded_room st x.
Proof. unfold on_leave_room. by case_decide. Qed.


(** After a leave of the recorded room, the disconnect handler sends the
    notifications of the leave once more. *)
Lemma disconnect_after_leave_outputs s roomId st :
  recorded_room st s = Some roomId →
  (on_disconnect s (on_leave_room s roomId st).1).2 = (on_leave_room s roomId st).2.
Proof.
  intros Hrec. rewrite on_disconnect_outputs.
  rewrite recorded_room_leave, Hrec.
  destruct (decide (roomId = "")) as [->|Hn]; [done|].
  rewrite !on_leave_room_nonempty by done. cbn [fst snd].
  unfold left_state.
  change (room_sockets (with_participants ?reg ?st') ?r) with (room_sockets st' r).
  rewrite room_sockets_leave, decide_True by done.
  by rewrite !remove_remove.
Qed.



(** * ICE configuration *)




(** Blank pieces of [ICE_STUN_URLS] are dropped, the others trimmed. *)
Example stunUrls_example :
  stunUrls (mkEnv (Some " stun:a.example:3478 , ,stun:b.example:3478,") None None None
              "" "" "" 600 "")
  = ["stun:a.example:3478"; "stun:b.example:3478"].
Proof. by vm_compute. Qed.

(** The issuer answers with a body that is not what is expected: the reply
    holds the STUN entry alone. *)
Example config_malformed_body :
  get_config env_xirsys 1000
    (Returned (mkResponse true 200 (Returned "") (Returned (JObj [("v", JStr "oops")]))))
    None
  = (mkConfigResponse 200
       [JObj [("urls", JArr [JStr "stun:a.example:3478"; JStr "stun:b.example:3478"])]]
       "http://localhost:8080",
     None,
     [mkRequest "channel" "ident" "secret"]).
Proof. by vm_compute. Qed.

Lemma xirsys_try_success now net cache servers :
  fetch_success net servers →
  xirsys_try now net cache = (Returned (Some (Some servers)), Some (mkCache servers now)).
Proof.
  intros (res & data & x & l & -> & Hok & Hjson & Hfield & ->).
  unfold xirsys_try. by rewrite Hok, Hjson, Hfield.
Qed.

(** C9. In a reachable state with a cached entry [c]: while
    [now - fetchedAt c < TTL] the call returns the cached descriptors,
    makes no request and leaves the entry as it is, and [/config] serves
    them after the STUN entry; once the entry has expired the call asks the
    issuer again; and a successful refresh stores exactly the fetched list
    with the time of the call, whatever the previous entry held. *)
Theorem C9_cache_reuse env st now net c :
  reachable env st →
  xirsysCache st = Some c →
  ((now - fetchedAt c < XIRSYS_TTL_SECONDS env * 1000)%Z →
     fetchXirsysIceServers env now net (Some c) = (Some (iceServers c), Some c, [])
     ∧ body_iceServers (get_config env now net (Some c)).1.1
       = stun_servers env ++ iceServers c)
  ∧ (¬ (now - fetchedAt c < XIRSYS_TTL_SECONDS env * 1000)%Z →
     (fetchXirsysIceServers env now net (Some c)).2 = [xirsys_request env]
     ∧ ∀ servers, fetch_success net servers →
         fetchXirsysIceServers env now net (Some c)
         = (Some servers, Some (mkCache servers now), [xirsys_request env])).
Proof.
  intros Hst%reachable_invariant Hc.
  destruct (inv_cache _ _ Hst _ Hc) as [Hcfg Hne].
  split.
  - intros Hfresh.
    assert (fetchXirsysIceServers env now net (Some c) = (Some (iceServers c), Some c, []))
      as Hfetch.
    { unfold fetchXirsysIceServers. rewrite Hcfg. unfold cache_fresh.
      by rewrite bool_decide_eq_true_2. }
    split; [done|]. unfold get_config. rewrite Hfetch.
    by destruct (iceServers c).
  - intros Hstale. unfold fetchXirsysIceServers. rewrite Hcfg. unfold cache_fresh.
    rewrite bool_decide_eq_false_2 by done. fold (xirsys_request env). split.
    + by destruct (xirsys_try now net (Some c)) as [[[r|]|e] cache'].
    + intros servers Hok. by rewrite (xirsys_try_success _ _ _ _ Hok).
Qed.

Lemma C9_cache_reuse_witness :
  let st := (run env_xirsys [GetConfig 1000 net_ok] initial_state).1 in
  let c := mkCache [turn0] 1000 in
  ((2000 - 1000 < 600 * 1000)%Z →
     fetchXirsysIceServers env_xirsys 2000 (Thrown "unreachable") (Some c)
     = (Some [turn0], Some c, [])
     ∧ body_iceServers (get_config env_xirsys 2000 (Thrown "unreachable") (Some c)).1.1
       = stun_servers env_xirsys ++ [turn0])
  ∧ (¬ (2000 - 1000 < 600 * 1000)%Z →
     (fetchXirsysIceServers env_xirsys 2000 (Thrown "unreachable") (Some c)).2
     = [xirsys_request env_xirsys]
     ∧ ∀ servers, fetch_success (Thrown "unreachable") servers →
         fetchXirsysIceServers env_xirsys 2000 (Thrown "unreachable") (Some c)
         = (Some servers, Some (mkCache servers 2000), [xirsys_request env_xirsys])).
Proof.
  intros st c.
  apply (C9_cache_reuse env_xirsys st 2000 (Thrown "unreachable") c).
  - apply run_reachable; [apply reachable_init | by vm_compute].
  - by vm_compute.
Defined.

(** An expired entry is replaced as a whole by a successful refresh. *)
Example cache_refresh_replaces :
  fetchXirsysIceServers env_xirsys 700000 net_ok
    (Some (mkCache [JStr "old-1"; JStr "old-2"] 1000))
  = (Some [turn0], Some (mkCache [turn0] 700000), [xirsys_request env_xirsys]).
Proof. by vm_compute. Qed.

(** * Further properties of the handlers *)

(** ** How one event changes a room of the registry *)

Lemma elem_of_set_inv {V} (m : list (string * V)) k v p :
  p ∈ JsMap.set k v m → p = (k, v) ∨ p ∈ m.
Proof.
  induction m as [|[k' v'] m IH]; simpl.
  - intros ->%list_elem_of_singleton. by left.
  - case_decide; subst; rewrite !elem_of_cons; [naive_solver|].
    intros [->|Hp]; [naive_solver|]. destruct (IH Hp); naive_solver.
Qed.

Lemma elem_of_delete_inv {V} (m : list (string * V)) k p :
  p ∈ JsMap.delete k m → p ∈ m.
Proof.
  induction m as [|[k' v'] m IH]; simpl; [done|].
  case_decide; subst; rewrite !elem_of_cons; naive_solver.
Qed.

Lemma or_guest_nonempty displayName : or_guest displayName ≠ "".
Proof. unfold or_guest. destruct displayName as [n|]; [by case_decide|done]. Qed.

(** After one event a room holds what it held before, or it was joined, or
    one member was deleted from it by a leave or by a disconnect that did
    not empty it. *)
Lemma registry_step env ev st r ps' :
  roomIdToParticipants (handle env ev st).1 !! r = Some ps' →
  roomIdToParticipants st !! r = Some ps'
  ∨ (∃ s dn, ev = JoinRoom s r dn
       ∧ ps' = JsMap.set s (or_guest dn) (default [] (roomIdToParticipants st !! r)))
  ∨ (∃ s ps, roomIdToParticipants st !! r = Some ps ∧ ps' = JsMap.delete s ps
       ∧ (ev = LeaveRoom s r ∨ (ev = Disconnect s ∧ ps' ≠ []))).
Proof.
  destruct ev as [s|s roomId dn|k s roomId payload|s roomId|s|now net]; simpl.
  - by left.
  - unfold on_join_room. case_decide; [by left|]. case_decide; [by left|]. simpl.
    destruct (decide (r = roomId)) as [->|Hr].
    + rewrite lookup_insert_eq. intros [= <-]. right. left. by exists s, dn.
    + rewrite lookup_insert_ne by done. by left.
  - unfold on_relay. case_decide; by left.
  - unfold on_leave_room. case_decide; [by left|]. simpl.
    rewrite lookup_delete_participant. case_decide as Hr; [subst|by left].
    destruct (roomIdToParticipants st !! roomId) as [ps|] eqn:E; [|done].
    simpl. intros [= <-]. right. right. exists s, ps. by auto.
  - rewrite on_disconnect_state. simpl. rewrite lookup_registry_after_disconnect.
    case_decide; [|by left].
    destruct (roomIdToParticipants st !! r) as [ps|] eqn:E; [|done].
    case_decide as Hsz; [done|]. intros [= <-]. right. right. exists s, ps.
    split_and!; [done|done|]. right. split; [done|].
    intros Hnil. apply Hsz. by rewrite Hnil.
  - by left.
Qed.

(** X1. In every reachable state each room of the registry has a
    non-empty key, at most two members, no member twice, and a non-empty
    display name for every member. *)
Theorem registry_rooms_well_formed env st :
  reachable env st →
  ∀ r ps, roomIdToParticipants st !! r = Some ps →
    r ≠ ""
    ∧ (JsMap.size ps ≤ 2)%nat
    ∧ NoDup (JsMap.keys ps)
    ∧ ∀ s name, (s, name) ∈ ps → name ≠ "".
Proof.
  intros Hst r ps Hr.
  destruct (inv_room _ _ (reachable_invariant _ _ Hst) _ _ Hr) as (? & ? & ?).
  split_and!; try done.
  clear -Hst Hr. revert r ps Hr.
  induction Hst as [|st ev Hst IH Hen]; intros r ps Hr s name Hin.
  { simpl in Hr. by rewrite lookup_empty in Hr. }
  apply registry_step in Hr as [Hr|[(s' & dn & -> & ->)|(s' & ps0 & Hr & -> & _)]].
  - by eapply IH.
  - apply elem_of_set_inv in Hin as [[= -> ->]|Hin]; [apply or_guest_nonempty|].
    destruct (roomIdToParticipants st !! r) as [ps0|] eqn:E; simpl in Hin.
    + by eapply IH.
    + by apply elem_of_nil in Hin.
  - apply elem_of_delete_inv in Hin. by eapply IH.
Qed.

Lemma registry_rooms_well_formed_witness :
  "x" ≠ ""
  ∧ (JsMap.size [("A", "alice"); ("B", "Guest")] ≤ 2)%nat
  ∧ NoDup (JsMap.keys [("A", "alice"); ("B", "Guest")])
  ∧ ∀ s name, (s, name) ∈ [("A", "alice"); ("B", "Guest")] → name ≠ "".
Proof.
  apply (registry_rooms_well_formed env0 st_full st_full_reachable "x").
  by vm_compute.
Defined.

(** X2. In every reachable state a transport room lists no connection
    twice and only connected ones, and a connection other than the room's
    namesake is in the transport room exactly when it is a connected member
    of the room in the registry. *)
Theorem transport_rooms_agree_with_registry env st room :
  reachable env st →
  NoDup (room_sockets st room)
  ∧ (∀ m, m ∈ room_sockets st room → is_connected st m = true)
  ∧ (∀ m, m ≠ room →
       (m ∈ room_sockets st room ↔ m ∈ members st room ∧ is_connected st m = true)).
Proof.
  intros Hinv%reachable_invariant. split_and!.
  - apply (inv_room_nodup _ _ Hinv).
  - apply (inv_room_connected _ _ Hinv).
  - intros m Hne. split.
    + intros Hm. split; [|by eapply inv_room_connected].
      by destruct (inv_room_member _ _ Hinv _ _ Hm).
    + intros [Hm Hc]. by eapply inv_member_room.
Qed.

Lemma transport_rooms_agree_with_registry_witness :
  NoDup (room_sockets st_full "x")
  ∧ (∀ m, m ∈ room_sockets st_full "x" → is_connected st_full m = true)
  ∧ (∀ m, m ≠ "x" →
       (m ∈ room_sockets st_full "x"
        ↔ m ∈ members st_full "x" ∧ is_connected st_full m = true)).
Proof.
  apply (transport_rooms_agree_with_registry env0 st_full "x").
  apply st_full_reachable.
Defined.

(** ** What the handlers emit, and to whom *)

Lemma is_connected_join s roomId displayName st x :
  is_connected (on_join_room s roomId displayName st).1 x = is_connected st x.
Proof.
  unfold on_join_room. case_decide; [done|]. case_decide; [done|].
  apply (is_connected_joined s roomId (or_guest displayName) st).
Qed.

(** Every emitted event either answers the joiner, and is then about
    nobody, or goes to another connection, which is in a transport room
    afterwards, and is then about the sender. *)
Lemma handle_outputs env ev st m e :
  (m, e) ∈ (handle env ev st).2 →
  ∃ s, sender ev = Some s
    ∧ ((m = s ∧ subject e = None ∧ ∃ roomId dn, ev = JoinRoom s roomId dn)
       ∨ (m ≠ s ∧ subject e = Some s
          ∧ ∃ room, m ∈ room_sockets (handle env ev st).1 room)).
Proof.
  destruct ev as [s|s roomId dn|k s roomId payload|s roomId|s|now net]; simpl.
  - by intros ?%elem_of_nil.
  - intros Hin. exists s. split; [done|]. unfold on_join_room in *.
    case_decide as Hne.
    { apply list_elem_of_singleton in Hin as [= -> ->]. left. eauto. }
    case_decide as Hsz.
    { apply list_elem_of_singleton in Hin as [= -> ->]. left. eauto. }
    simpl in Hin. apply elem_of_app in Hin as [Hin|Hin].
    + apply elem_of_broadcast in Hin as (-> & Hms & Hm). right.
      split_and!; [done|done|]. by exists roomId.
    + apply list_elem_of_singleton in Hin as [= -> ->]. left. eauto.
  - intros Hin. exists s. split; [done|]. unfold on_relay in *.
    case_decide; [by apply elem_of_nil in Hin|]. simpl in *.
    apply elem_of_broadcast in Hin as (-> & Hms & Hm). right.
    split_and!; [done|by destruct k|]. by exists roomId.
  - intros Hin. exists s. split; [done|]. unfold on_leave_room in *.
    case_decide; [by apply elem_of_nil in Hin|]. simpl in *.
    apply elem_of_broadcast in Hin as (-> & Hms & Hm). right.
    split_and!; [done|done|]. by exists roomId.
  - intros Hin. exists s. split; [done|].
    rewrite on_disconnect_outputs in Hin.
    destruct (recorded_room st s) as [roomId|]; [|by apply elem_of_nil in Hin].
    case_decide; [by apply elem_of_nil in Hin|].
    apply list_elem_of_fmap in Hin as (x & [= -> ->] & Hx).
    rewrite remove_remove in Hx. pose proof Hx as [Hms _]%elem_of_remove.
    right. split_and!; [done|done|]. exists roomId.
    rewrite on_disconnect_state.
    change (room_sockets (with_participants ?reg ?st') ?r) with (room_sockets st' r).
    by rewrite room_sockets_close.
  - by intros ?%elem_of_nil.
Qed.

(** X3. In a run of the server no event is ever emitted to a connection
    that is closed: every output of a handler goes to a connection that is
    connected once the handler has run. *)
Theorem outputs_reach_connected_sockets env st ev :
  reachable env st →
  enabled st ev = true →
  ∀ m e, (m, e) ∈ (handle env ev st).2 → is_connected (handle env ev st).1 m = true.
Proof.
  intros Hst Hen m e Hin.
  pose proof (reachable_invariant _ _ (reachable_step _ _ _ Hst Hen)) as Hinv.
  apply handle_outputs in Hin as (s & Hs & [(-> & _ & roomId & dn & ->)|(_ & _ & room & Hm)]).
  - simpl in *. by rewrite is_connected_join.
  - by eapply inv_room_connected.
Qed.

Lemma outputs_reach_connected_sockets_witness :
  (handle env0 (Disconnect "A") st_full).2 = [("B", peer_left "A")]
  ∧ (∀ m e, (m, e) ∈ (handle env0 (Disconnect "A") st_full).2 →
            is_connected (handle env0 (Disconnect "A") st_full).1 m = true).
Proof.
  split; [by vm_compute|].
  apply (outputs_reach_connected_sockets env0 st_full (Disconnect "A")).
  - apply st_full_reachable.
  - by vm_compute.
Defined.









(** ** Cleaning up *)

(** X7. Whatever the state, when a connection with a recorded room
    disconnects, it is no longer a member of that room, the room is either
    gone from the registry or still has a member, the other rooms are as
    before, and the connection is closed and in no transport room. *)
Theorem disconnect_cleans_recorded_room s st r :
  recorded_room st s = Some r →
  r ≠ "" →
  (s ∉ members (on_disconnect s st).1 r)
  ∧ (roomIdToParticipants (on_disconnect s st).1 !! r = None
     ∨ ∃ ps, roomIdToParticipants (on_disconnect s st).1 !! r = Some ps ∧ ps ≠ [])
  ∧ (∀ r', r' ≠ r →
       roomIdToParticipants (on_disconnect s st).1 !! r' = roomIdToParticipants st !! r')
  ∧ is_connected (on_disconnect s st).1 s = false
  ∧ ∀ room, s ∉ room_sockets (on_disconnect s st).1 room.
Proof.
  intros Hrec Hne. split_and!.
  - rewrite members_after_disconnect. naive_solver.
  - rewrite on_disconnect_state. simpl. rewrite lookup_registry_after_disconnect.
    rewrite decide_True by done.
    destruct (roomIdToParticipants st !! r) as [ps|]; [|by left].
    case_decide as Hsz; [by left|]. right. eexists. split; [done|].
    intros Hnil. apply Hsz. by rewrite Hnil.
  - intros r' Hr'. rewrite on_disconnect_state. simpl.
    rewrite lookup_registry_after_disconnect. rewrite decide_False; [done|].
    rewrite Hrec. naive_solver.
  - rewrite on_disconnect_state.
    change (is_connected (with_participants ?reg ?st') ?x) with (is_connected st' x).
    rewrite is_connected_close. by rewrite decide_True.
  - intros room. rewrite on_disconnect_state.
    change (room_sockets (with_participants ?reg ?st') ?x) with (room_sockets st' x).
    rewrite room_sockets_close. intros [? _]%elem_of_remove. done.
Qed.

Lemma disconnect_cleans_recorded_room_witness :
  ("A" ∉ members (on_disconnect "A" st_full).1 "x")
  ∧ (roomIdToParticipants (on_disconnect "A" st_full).1 !! "x" = None
     ∨ ∃ ps, roomIdToParticipants (on_disconnect "A" st_full).1 !! "x" = Some ps ∧ ps ≠ [])
  ∧ (∀ r', r' ≠ "x" →
       roomIdToParticipants (on_disconnect "A" st_full).1 !! r'
       = roomIdToParticipants st_full !! r')
  ∧ is_connected (on_disconnect "A" st_full).1 "A" = false
  ∧ ∀ room, "A" ∉ room_sockets (on_disconnect "A" st_full).1 room.
Proof.
  apply (disconnect_cleans_recorded_room "A" st_full "x").
  - by vm_compute.
  - done.
Defined.

Lemma set_nonempty {V} (m : list (string * V)) k v : JsMap.set k v m ≠ [].
Proof. destruct m as [|[k' v'] m]; simpl; [done|]. by case_decide. Qed.

Lemma rooms_nonempty_run env evs st :
  (∀ r ps, roomIdToParticipants st !! r = Some ps → ps ≠ []) →
  forallb (λ ev, negb (is_leave ev)) evs = true →
  ∀ r ps, roomIdToParticipants (run env evs st).1 !! r = Some ps → ps ≠ [].
Proof.
  revert st. induction evs as [|ev evs IH]; intros st Hst Hno; [done|].
  simpl in Hno. apply andb_true_iff in Hno as [Hev Hno].
  rewrite run_state_cons. apply IH; [|done].
  intros r ps [Hr|[(s & dn & -> & ->)|(s & ps0 & Hr & -> & [->|[_ Hne]])]]%registry_step.
  - by eapply Hst.
  - apply set_nonempty.
  - done.
  - done.
Qed.

(** X8. In a run without [leave_room] events every room of the registry
    has at least one member: joining creates a room with its first member,
    and the disconnect handler deletes the room it empties. *)
Theorem rooms_nonempty_without_leave env evs :
  forallb (λ ev, negb (is_leave ev)) evs = true →
  ∀ r ps, roomIdToParticipants (run env evs initial_state).1 !! r = Some ps → ps ≠ [].
Proof.
  apply rooms_nonempty_run. intros r ps. simpl. by rewrite lookup_empty.
Qed.

Lemma rooms_nonempty_without_leave_witness :
  let evs := [Connection "A"; Connection "B"; JoinRoom "A" "x" None;
              JoinRoom "B" "x" (Some "bob"); Disconnect "A"] in
  roomIdToParticipants (run env0 evs initial_state).1 !! "x" = Some [("B", "bob")]
  ∧ [("B", "bob")] ≠ [].
Proof.
  intros evs. split; [by vm_compute|].
  refine (rooms_nonempty_without_leave env0 evs _ "x" _ _); by vm_compute.
Defined.

(** ** Disciplined runs *)

Lemma reachable_disciplined_reachable env st :
  reachable_disciplined env st → reachable env st.
Proof.
  induction 1 as [|st ev Hst IH Hen Hj]; [apply reachable_init|].
  by apply reachable_step.
Qed.

Lemma recorded_room_joined s roomId name st x :
  is_connected st s = true →
  recorded_room (joined_state s roomId name st) x
  = if decide (x = s) then Some roomId else recorded_room st x.
Proof.
  intros Hs. unfold recorded_room, joined_state; simpl. case_decide; subst.
  - rewrite lookup_alter_eq. apply is_connected_is_Some in Hs as [sock ->]. done.
  - by rewrite lookup_alter_ne.
Qed.

Lemma recorded_room_disconnect s st x :
  recorded_room (on_disconnect s st).1 x = recorded_room st x.
Proof.
  rewrite on_disconnect_state.
  change (recorded_room (with_participants ?reg ?st') ?y) with (recorded_room st' y).
  apply recorded_room_close.
Qed.

Lemma is_connected_disconnect s st x :
  is_connected (on_disconnect s st).1 x = if decide (x = s) then false else is_connected st x.
Proof.
  rewrite on_disconnect_state.
  change (is_connected (with_participants ?reg ?st') ?y) with (is_connected st' y).
  apply is_connected_close.
Qed.

Lemma members_live_step env st ev :
  reachable env st → members_live st →
  enabled st ev = true → join_allowed st ev = true →
  members_live (handle env ev st).1.
Proof.
  intros Hst Hlive Hen Hj.
  pose proof (reachable_invariant _ _ Hst) as Hinv.
  destruct ev as [s|s roomId dn|k s roomId payload|s roomId|s|now net]; simpl in *.
  - apply bool_decide_eq_true in Hen. intros r x Hx.
    change (x ∈ members st r) in Hx.
    assert (x ≠ s) as Hxs.
    { intros ->. destruct (inv_member_known _ _ Hinv _ _ Hx) as [? Hsome]. congruence. }
    destruct (Hlive _ _ Hx) as [Hc Hrec]. split.
    + unfold is_connected in *; simpl. by rewrite lookup_insert_ne.
    + unfold recorded_room in *; simpl. by rewrite lookup_insert_ne.
  - unfold on_join_room. case_decide; [done|]. case_decide; [done|].
    change (members_live (joined_state s roomId (or_guest dn) st)).
    intros r x. rewrite members_joined, is_connected_joined, recorded_room_joined by done.
    intros [Hx|[-> ->]].
    + destruct (Hlive _ _ Hx) as [Hc Hrec]. split; [done|].
      case_decide; [subst|done]. f_equal. symmetry.
      by eapply (join_allowed_spec st s roomId dn).
    + split; [done|]. by rewrite decide_True.
  - unfold on_relay. by case_decide.
  - unfold on_leave_room. case_decide; [done|].
    change (members_live (left_state s roomId st)).
    intros r x.
    rewrite (members_delete_participant s roomId (socket_leave s roomId st)).
    intros [Hx _]. by apply Hlive.
  - intros r x. rewrite members_after_disconnect, is_connected_disconnect,
      recorded_room_disconnect.
    intros [Hx Hnot]. destruct (Hlive _ _ Hx) as [Hc Hrec].
    case_decide; [subst|done]. destruct Hnot. split_and!; [done| |done].
    by eapply members_nonempty_key.
  - exact Hlive.
Qed.

(** X9. In every state reached by a run in which no connection joins a
    room while it is a member of another one, every member of a room is a
    connected socket whose recorded room is that room; and a connection
    that disconnects in such a state is the member of no room afterwards. *)
Theorem disciplined_members_are_live env st :
  reachable_disciplined env st →
  (∀ r s, s ∈ members st r → is_connected st s = true ∧ recorded_room st s = Some r)
  ∧ (∀ s r, s ∉ members (on_disconnect s st).1 r).
Proof.
  intros Hst.
  assert (members_live st) as Hlive.
  { induction Hst as [|st ev Hst IH Hen Hj].
    - intros r s. unfold members; simpl. rewrite lookup_empty. by intros ?%elem_of_nil.
    - apply members_live_step; [by apply reachable_disciplined_reachable|done..]. }
  split; [exact Hlive|].
  intros s r. rewrite members_after_disconnect. intros [Hs Hnot].
  destruct (Hlive _ _ Hs) as [_ Hrec]. apply Hnot. split_and!; [done| |done].
  eapply members_nonempty_key; [by apply reachable_disciplined_reachable|done].
Qed.

Lemma disciplined_members_are_live_witness :
  (∀ r s, s ∈ members st_full r →
     is_connected st_full s = true ∧ recorded_room st_full s = Some r)
  ∧ (∀ s r, s ∉ members (on_disconnect s st_full).1 r).
Proof.
  apply (disciplined_members_are_live env0 st_full).
  apply run_reachable_disciplined; [apply disciplined_init | by vm_compute].
Defined.

(** Without the discipline a stale member stays behind: A joins "x" and
    "y" and disconnects, and the registry still lists A in "x". *)
Example stale_member_after_double_join :
  members
    (run env0 [Connection "A"; JoinRoom "A" "x" None; JoinRoom "A" "y" None;
               Disconnect "A"] initial_state).1 "x"
  = ["A"].
Proof. by vm_compute. Qed.

(** ** The two subsystems *)

(** X10. Signaling and ICE configuration do not touch each other's
    state: an event of a connection leaves the credential cache as it is
    and is handled the same way under every environment, and serving
    [/config] changes nothing but the cache and emits nothing. *)
Theorem signaling_and_config_are_separate env ev st :
  (is_config ev = false →
     xirsysCache (handle env ev st).1 = xirsysCache st
     ∧ ∀ env', handle env' ev st = handle env ev st)
  ∧ (is_config ev = true →
     roomIdToParticipants (handle env ev st).1 = roomIdToParticipants st
     ∧ io_rooms (handle env ev st).1 = io_rooms st
     ∧ io_sockets (handle env ev st).1 = io_sockets st
     ∧ (handle env ev st).2 = []).
Proof.
  destruct ev as [s|s roomId dn|k s roomId payload|s roomId|s|now net];
    (split; intros Hc; [|try done]); try done; try (split; [|done]); simpl.
  - unfold on_join_room. by repeat case_decide.
  - unfold on_relay. by case_decide.
  - unfold on_leave_room. by case_decide.
  - by rewrite on_disconnect_state.
Qed.

(** * Further properties of the ICE configuration *)

Lemma xirsys_try_returns now net cache servers :
  (xirsys_try now net cache).1 = Returned (Some (Some servers)) →
  fetch_success net servers
  ∧ (xirsys_try now net cache).2 = Some (mkCache servers now).
Proof.
  unfold xirsys_try, fetch_success. destruct net as [res|e]; [|done].
  destruct (res_ok res) eqn:Hok; simpl.
  - destruct (res_json res) as [data|e] eqn:Hjson; [|done].
    destruct (json_field "iceServers" _) as [[| | | |[|x l]|]|] eqn:Hfield; simpl; try done.
    intros [= <-]. split; [|done]. by exists res, data, x, l.
  - by destruct (res_text res).
Qed.

(** X11. Relay servers from the issuer are served in two cases only: from
    a cached entry that has not expired, without any request, or from a
    fetch that this very call made and that succeeded, in which case they
    are stored with the time of the call. An expired entry is never
    served. *)
Theorem xirsys_servers_provenance env now net cache servers :
  (fetchXirsysIceServers env now net cache).1.1 = Some servers →
  xirsys_unconfigured env = false
  ∧ ((∃ c, cache = Some c ∧ cache_fresh env now c = true ∧ servers = iceServers c
        ∧ (fetchXirsysIceServers env now net cache).1.2 = cache
        ∧ (fetchXirsysIceServers env now net cache).2 = [])
     ∨ ((∀ c, cache = Some c → cache_fresh env now c = false)
        ∧ fetch_success net servers
        ∧ (fetchXirsysIceServers env now net cache).1.2 = Some (mkCache servers now)
        ∧ (fetchXirsysIceServers env now net cache).2 = [xirsys_request env])).
Proof.
  unfold fetchXirsysIceServers.
  destruct (xirsys_unconfigured env); [done|]. intros Hres. split; [done|].
  fold (xirsys_request env) in *.
  assert (Htry : ∀ cache0,
    (match xirsys_try now net cache0 with
     | (Returned (Some r), cache') => (r, cache', [xirsys_request env])
     | (Returned None, cache') | (Thrown _, cache') => (None, cache', [xirsys_request env])
     end).1.1 = Some servers →
    fetch_success net servers
    ∧ (match xirsys_try now net cache0 with
       | (Returned (Some r), cache') => (r, cache', [xirsys_request env])
       | (Returned None, cache') | (Thrown _, cache') => (None, cache', [xirsys_request env])
       end).1.2 = Some (mkCache servers now)
    ∧ (match xirsys_try now net cache0 with
       | (Returned (Some r), cache') => (r, cache', [xirsys_request env])
       | (Returned None, cache') | (Thrown _, cache') => (None, cache', [xirsys_request env])
       end).2 = [xirsys_request env]).
  { intros cache0 H.
    pose proof (xirsys_try_returns now net cache0 servers) as Hret.
    destruct (xirsys_try now net cache0) as [[[[r|]|]|e] cache']; simpl in *; try done.
    injection H as ->. destruct Hret as [? ->]; done. }
  destruct cache as [c|].
  - destruct (cache_fresh env now c) eqn:Hfresh.
    + left. exists c. simpl in Hres. injection Hres as <-. done.
    + right. apply Htry in Hres as (? & ? & ?). split_and!; try done.
      by intros c' [= <-].
  - right. apply Htry in Hres as (? & ? & ?). split_and!; done.
Qed.

Lemma xirsys_servers_provenance_witness :
  xirsys_unconfigured env_xirsys = false
  ∧ ((∃ c, Some (mkCache [JStr "old"] 1000) = Some c ∧ cache_fresh env_xirsys 700000 c = true
        ∧ [turn0] = iceServers c
        ∧ (fetchXirsysIceServers env_xirsys 700000 net_ok
             (Some (mkCache [JStr "old"] 1000))).1.2 = Some (mkCache [JStr "old"] 1000)
        ∧ (fetchXirsysIceServers env_xirsys 700000 net_ok
             (Some (mkCache [JStr "old"] 1000))).2 = [])
     ∨ ((∀ c, Some (mkCache [JStr "old"] 1000) = Some c → cache_fresh env_xirsys 700000 c = false)
        ∧ fetch_success net_ok [turn0]
        ∧ (fetchXirsysIceServers env_xirsys 700000 net_ok
             (Some (mkCache [JStr "old"] 1000))).1.2 = Some (mkCache [turn0] 700000)
        ∧ (fetchXirsysIceServers env_xirsys 700000 net_ok
             (Some (mkCache [JStr "old"] 1000))).2 = [xirsys_request env_xirsys])).
Proof.
  apply (xirsys_servers_provenance env_xirsys 700000 net_ok
           (Some (mkCache [JStr "old"] 1000)) [turn0]).
  by vm_compute.
Defined.

(** X12. A call makes at most one request to the issuer, and none when
    the issuer is not configured or the cached entry has not expired; it
    never clears the cache, and when it changes the cache the new entry is
    stamped with the time of the call and holds a non-empty list, the one
    the call returns. *)
Theorem cache_write_discipline env now net cache :
  (List.length (fetchXirsysIceServers env now net cache).2 ≤ 1)%nat
  ∧ (xirsys_unconfigured env = true
     ∨ (∃ c, cache = Some c ∧ cache_fresh env now c = true) →
     (fetchXirsysIceServers env now net cache).2 = []
     ∧ (fetchXirsysIceServers env now net cache).1.2 = cache)
  ∧ ((fetchXirsysIceServers env now net cache).1.2 = None → cache = None)
  ∧ ((fetchXirsysIceServers env now net cache).1.2 = cache
     ∨ ∃ servers, servers ≠ []
         ∧ (fetchXirsysIceServers env now net cache).1.1 = Some servers
         ∧ (fetchXirsysIceServers env now net cache).1.2 = Some (mkCache servers now)).
Proof.
  assert (Hchange :
    (fetchXirsysIceServers env now net cache).1.2 = cache
    ∨ ∃ servers, servers ≠ []
        ∧ (fetchXirsysIceServers env now net cache).1.1 = Some servers
        ∧ (fetchXirsysIceServers env now net cache).1.2 = Some (mkCache servers now)).
  { destruct ((fetchXirsysIceServers env now net cache).1.1) as [servers|] eqn:Hres.
    - destruct (xirsys_servers_provenance _ _ _ _ _ Hres)
        as [_ [(c & -> & _ & -> & Hc & _)|(_ & Hok & Hc & _)]]; [by left|].
      right. exists servers. split_and!; [|done|done].
      destruct Hok as (? & ? & ? & ? & _ & _ & _ & _ & ->). done.
    - left. unfold fetchXirsysIceServers in *.
      destruct (xirsys_unconfigured env); [done|].
      assert (Htry : ∀ cache0,
        (match xirsys_try now net cache0 with
         | (Returned (Some r), cache') =>
             (r, cache', [mkRequest (XIRSYS_CHANNEL env) (XIRSYS_IDENT env) (XIRSYS_SECRET env)])
         | (Returned None, cache') | (Thrown _, cache') =>
             (None, cache', [mkRequest (XIRSYS_CHANNEL env) (XIRSYS_IDENT env) (XIRSYS_SECRET env)])
         end).1.1 = None →
        (match xirsys_try now net cache0 with
         | (Returned (Some r), cache') =>
             (r, cache', [mkRequest (XIRSYS_CHANNEL env) (XIRSYS_IDENT env) (XIRSYS_SECRET env)])
         | (Returned None, cache') | (Thrown _, cache') =>
             (None, cache', [mkRequest (XIRSYS_CHANNEL env) (XIRSYS_IDENT env) (XIRSYS_SECRET env)])
         end).1.2 = cache0).
      { intros cache0. unfold xirsys_try. destruct net as [res|e]; [|done].
        destruct (negb (res_ok res)); [by destruct (res_text res)|].
        destruct (res_json res) as [data|e]; [|done].
        by destruct (json_field "iceServers" _) as [[| | | |[|x l]|]|]. }
      destruct cache as [c|]; [destruct (cache_fresh env now c); [done|]|]; by apply Htry. }
  split_and!; [| | |exact Hchange].
  - unfold fetchXirsysIceServers. destruct (xirsys_unconfigured env); [simpl; lia|].
    destruct cache as [c|]; [destruct (cache_fresh env now c); [simpl; lia|]|];
      by destruct (xirsys_try now net _) as [[[[r|]|]|e] cache'].
  - unfold fetchXirsysIceServers. intros [->|(c & -> & Hfresh)]; [done|].
    destruct (xirsys_unconfigured env); [done|]. by rewrite Hfresh.
  - intros Hnone. destruct Hchange as [<-|(servers & _ & _ & Hc)]; [done|congruence].
Qed.

(** X13. When the issuer is not configured, [/config] of this revision
    answers exactly as [/config] of the earlier revision, makes no request
    and leaves the cache alone; that answer has at most two entries, the
    STUN entry first. *)
Theorem config_agrees_with_earlier_revision env now net cache :
  xirsys_unconfigured env = true →
  get_config env now net cache = (get_config_v1 env, cache, [])
  ∧ (List.length (body_iceServers (get_config_v1 env)) ≤ 2)%nat
  ∧ body_iceServers (get_config_v1 env) = stun_servers env ++ static_turn_servers env.
Proof.
  intros Hcfg. split_and!.
  - unfold get_config, fetchXirsysIceServers. by rewrite Hcfg.
  - unfold get_config_v1; simpl. rewrite length_app.
    assert (List.length (stun_servers env) ≤ 1)%nat.
    { unfold stun_servers. destruct (stunUrls env); simpl; lia. }
    assert (List.length (static_turn_servers env) ≤ 1)%nat.
    { unfold static_turn_servers.
      destruct (trim <$> TURN_URL env), (trim <$> TURN_USERNAME env),
        (trim <$> TURN_PASSWORD env); simpl; try lia.
      destruct (_ && _); simpl; lia. }
    lia.
  - done.
Qed.

Lemma config_agrees_with_earlier_revision_witness :
  get_config env0 5 net_ok None = (get_config_v1 env0, None, [])
  ∧ (List.length (body_iceServers (get_config_v1 env0)) ≤ 2)%nat
  ∧ body_iceServers (get_config_v1 env0) = stun_servers env0 ++ static_turn_servers env0.
Proof.
  apply (config_agrees_with_earlier_revision env0 5 net_ok None).
  reflexivity.
Defined.

(** ** The lists of the configuration *)

Lemma drop_spaces_fixed l :
  match l with c :: _ => is_space c = false | [] => True end → drop_spaces l = l.
Proof. destruct l as [|c l]; simpl; [done|]. by intros ->. Qed.

Lemma drop_spaces_head l :
  match drop_spaces l with c :: _ => is_space c = false | [] => True end.
Proof.
  induction l as [|c l IH]; simpl; [done|].
  destruct (is_space c) eqn:E; [done|]. simpl. done.
Qed.

Lemma drop_spaces_suffix l : ∃ p, l = p ++ drop_spaces l.
Proof.
  induction l as [|c l [p IH]]; simpl; [by exists []|].
  destruct (is_space c); [|by exists []].
  exists (c :: p). simpl. by rewrite <- IH.
Qed.

Lemma trim_chars_fixed l :
  let t := rev (drop_spaces (rev (drop_spaces l))) in
  rev (drop_spaces (rev (drop_spaces t))) = t.
Proof.
  simpl. set (a := drop_spaces l). set (b := drop_spaces (rev a)).
  assert (drop_spaces (rev b) = rev b) as ->.
  { apply drop_spaces_fixed.
    destruct (drop_spaces_suffix (rev a)) as [p Hp]. fold b in Hp.
    apply (f_equal (@rev ascii)) in Hp. rewrite rev_involutive, rev_app_distr in Hp.
    pose proof (drop_spaces_head l) as Ha. fold a in Ha.
    destruct (rev b) as [|c t]; [done|]. rewrite Hp in Ha. done. }
  rewrite rev_involutive. f_equal. apply drop_spaces_fixed, drop_spaces_head.
Qed.

Lemma trim_idempotent s : trim (trim s) = trim s.
Proof.
  unfold trim. rewrite String.list_ascii_of_string_of_list_ascii.
  f_equal. apply trim_chars_fixed.
Qed.

Lemma elem_of_rev {A} (x : A) l : x ∈ rev l ↔ x ∈ l.
Proof. rewrite !list_elem_of_In. symmetry. apply in_rev. Qed.

Lemma elem_of_drop_spaces c l : c ∈ drop_spaces l → c ∈ l.
Proof.
  destruct (drop_spaces_suffix l) as [p Hp]. intros Hc. rewrite Hp.
  apply elem_of_app. by right.
Qed.

Lemma elem_of_trim c s :
  c ∈ String.list_ascii_of_string (trim s) → c ∈ String.list_ascii_of_string s.
Proof.
  unfold trim. rewrite String.list_ascii_of_string_of_list_ascii.
  intros Hc. apply (proj1 (elem_of_rev _ _)) in Hc.
  apply elem_of_drop_spaces in Hc. apply (proj1 (elem_of_rev _ _)) in Hc.
  by apply elem_of_drop_spaces.
Qed.

Lemma includes_comma_false s :
  includes_comma s = false ↔ ","%char ∉ String.list_ascii_of_string s.
Proof.
  unfold includes_comma. induction (String.list_ascii_of_string s) as [|c l IH]; simpl.
  - split; [|done]. intros _ ?%elem_of_nil. done.
  - rewrite orb_false_iff, IH, not_elem_of_cons. rewrite Ascii.eqb_neq. naive_solver.
Qed.

Lemma split_comma_aux_pieces cur l piece :
  ","%char ∉ cur → piece ∈ split_comma_aux cur l →
  ","%char ∉ String.list_ascii_of_string piece.
Proof.
  revert cur. induction l as [|c l IH]; intros cur Hcur; simpl.
  - intros ->%list_elem_of_singleton.
    rewrite String.list_ascii_of_string_of_list_ascii. by rewrite elem_of_rev.
  - destruct (Ascii.eqb c ",") eqn:E.
    + intros [->|Hp]%elem_of_cons.
      * rewrite String.list_ascii_of_string_of_list_ascii. by rewrite elem_of_rev.
      * apply (IH []); [|done]. by intros ?%elem_of_nil.
    + apply IH. apply Ascii.eqb_neq in E. rewrite not_elem_of_cons. naive_solver.
Qed.

(** Every entry of a parsed list is non-empty, without white space at
    either end, and without a comma. *)
Lemma parse_list_entries raw u :
  u ∈ parse_list raw → u ≠ "" ∧ trim u = u ∧ includes_comma u = false.
Proof.
  unfold parse_list. intros Hu%list_elem_of_In%filter_In. destruct Hu as [Hin Hu].
  apply list_elem_of_In, list_elem_of_fmap in Hin as (piece & -> & Hpiece).
  split_and!.
  - by apply bool_decide_eq_true in Hu.
  - apply trim_idempotent.
  - apply includes_comma_false. intros Hc%elem_of_trim. revert Hc.
    eapply (split_comma_aux_pieces []); [|exact Hpiece]. by intros ?%elem_of_nil.
Qed.

(** X14. Every STUN URL that [/config] serves is non-empty, has no white
    space at either end and holds no comma; when [ICE_STUN_URLS] is unset
    or empty the list is the default server alone; and the base list has
    at most one entry. *)
Theorem stunUrls_well_formed env :
  (∀ u, u ∈ stunUrls env → u ≠ "" ∧ trim u = u ∧ includes_comma u = false)
  ∧ (ICE_STUN_URLS env = None ∨ ICE_STUN_URLS env = Some "" →
       stunUrls env = ["stun:stun.l.google.com:19302"])
  ∧ (List.length (stun_servers env) ≤ 1)%nat.
Proof.
  split_and!.
  - intros u.
    change (stunUrls env)
      with (parse_list (env_or (ICE_STUN_URLS env) "stun:stun.l.google.com:19302")).
    apply parse_list_entries.
  - unfold stunUrls. by intros [->| ->].
  - unfold stun_servers. destruct (stunUrls env); simpl; lia.
Qed.

(** X15. The origins given to the CORS middleware: a value with a comma
    becomes a list whose entries are non-empty, trimmed and comma-free; a
    value without a comma is passed on as one trimmed origin; and an unset
    or empty [CORS_ORIGIN] gives the wildcard. *)
Theorem CORS_ORIGIN_well_formed raw :
  match CORS_ORIGIN raw with
  | origin_list origins =>
      includes_comma (RAW_CORS_ORIGIN raw) = true
      ∧ ∀ o, o ∈ origins → o ≠ "" ∧ trim o = o ∧ includes_comma o = false
  | origin_single o => o = RAW_CORS_ORIGIN raw ∧ trim o = o ∧ includes_comma o = false
  end
  ∧ (raw = None ∨ raw = Some "" → CORS_ORIGIN raw = origin_single "*").
Proof.
  split.
  - unfold CORS_ORIGIN. destruct (includes_comma (RAW_CORS_ORIGIN raw)) eqn:E.
    + split; [done|]. intros o. apply parse_list_entries.
    + split_and!; [done| |done]. apply trim_idempotent.
  - by intros [->| ->].
Qed.

(** ** Base addresses *)

Lemma drop_slashes_head l :
  match drop_slashes l with c :: _ => c ≠ "/"%char | [] => True end.
Proof.
  induction l as [|c l IH]; simpl; [done|].
  destruct (Ascii.eqb c "/") eqn:E; [done|]. by apply Ascii.eqb_neq in E.
Qed.

Lemma drop_slashes_suffix l :
  ∃ p, Forall (λ c, c = "/"%char) p ∧ l = p ++ drop_slashes l.
Proof.
  induction l as [|c l (p & Hp & IH)]; simpl; [by exists []|].
  destruct (Ascii.eqb c "/") eqn:E; [|by exists []].
  apply Ascii.eqb_eq in E as ->.
  exists ("/"%char :: p). split; [by constructor|]. simpl. by rewrite <- IH.
Qed.

Lemma drop_slashes_fixed l :
  match l with c :: _ => c ≠ "/"%char | [] => True end → drop_slashes l = l.
Proof.
  destruct l as [|c l]; simpl; [done|]. intros Hc.
  apply Ascii.eqb_neq in Hc. by rewrite Hc.
Qed.

Lemma string_of_list_ascii_app l1 l2 :
  String.string_of_list_ascii (l1 ++ l2)
  = String.string_of_list_ascii l1 +:+ String.string_of_list_ascii l2.
Proof. induction l1 as [|c l1 IH]; simpl; [done|]. by rewrite IH. Qed.

Lemma list_ascii_of_string_app s1 s2 :
  String.list_ascii_of_string (s1 +:+ s2)
  = String.list_ascii_of_string s1 ++ String.list_ascii_of_string s2.
Proof. induction s1 as [|c s1 IH]; simpl; [done|]. by rewrite IH. Qed.

(** X16. Stripping the slashes at the end of a base address, as the
    server does for the issuer's address and the client for the server's:
    the result ends with no slash, the input is the result followed by
    slashes only, and stripping again changes nothing; so neither
    [XIRSYS_API_PATH] nor [SERVER_URL] ever ends with a slash. *)
Theorem strip_trailing_slashes_spec s :
  (∀ t, strip_trailing_slashes s ≠ t +:+ "/")
  ∧ (∃ slashes, Forall (λ c, c = "/"%char) slashes
       ∧ s = strip_trailing_slashes s +:+ String.string_of_list_ascii slashes)
  ∧ strip_trailing_slashes (strip_trailing_slashes s) = strip_trailing_slashes s
  ∧ (∀ raw t, XIRSYS_API_PATH raw ≠ t +:+ "/" ∧ SERVER_URL raw ≠ t +:+ "/").
Proof.
  assert (Hend : ∀ s' t, strip_trailing_slashes s' ≠ t +:+ "/").
  { intros s' t Heq. apply (f_equal String.list_ascii_of_string) in Heq.
    unfold strip_trailing_slashes in Heq.
    rewrite String.list_ascii_of_string_of_list_ascii, list_ascii_of_string_app in Heq.
    apply (f_equal (@rev ascii)) in Heq. rewrite rev_involutive, rev_app_distr in Heq.
    pose proof (drop_slashes_head (rev (String.list_ascii_of_string s'))) as Hhead.
    rewrite Heq in Hhead. simpl in Hhead. done. }
  split_and!.
  - apply Hend.
  - destruct (drop_slashes_suffix (rev (String.list_ascii_of_string s))) as (p & Hp & Heq).
    exists (rev p). split.
    + rewrite Forall_forall in Hp. apply Forall_forall. intros c Hc.
      apply Hp. by apply (proj1 (elem_of_rev _ _)).
    + unfold strip_trailing_slashes. rewrite <- string_of_list_ascii_app, <- rev_app_distr.
      by rewrite <- Heq, rev_involutive, String.string_of_list_ascii_of_string.
  - unfold strip_trailing_slashes.
    rewrite String.list_ascii_of_string_of_list_ascii, rev_involutive.
    by rewrite drop_slashes_fixed by apply drop_slashes_head.
  - intros raw t. split; apply Hend.
Qed.

(** * Recording upload *)





(** * The client and the server together *)

(** X18. The client sends [join_room] only with a room identifier and a
    display name that are both non-empty, and only once the local media is
    open; so, whatever the state of the server, a join made through the
    client is never answered with [error_message], and the name announced
    to the peer is the name the user entered, never the placeholder. *)
Theorem client_join_never_invalid env media s roomId displayName st :
  (client_join media s roomId displayName = []
   ↔ roomId = "" ∨ displayName = "" ∨ media = false)
  ∧ (∀ m msg,
       (m, error_message msg) ∉ (run env (client_join media s roomId displayName) st).2)
  ∧ (∀ m name,
       (m, peer_joined s name) ∈ (run env (client_join media s roomId displayName) st).2 →
       name = displayName).
Proof.
  unfold client_join, truthy.
  destruct (decide (roomId = "")) as [->|Hr].
  { rewrite bool_decide_eq_false_2 by (intros H; by apply H). simpl.
    split_and!; [naive_solver| |]; intros m e; rewrite elem_of_nil; tauto. }
  destruct (decide (displayName = "")) as [->|Hd].
  { rewrite bool_decide_eq_true_2 by done.
    rewrite bool_decide_eq_false_2 by (intros H; by apply H). simpl.
    split_and!; [naive_solver| |]; intros m e; rewrite elem_of_nil; tauto. }
  rewrite !bool_decide_eq_true_2 by done. simpl.
  destruct media; simpl.
  2:{ split_and!; [naive_solver| |]; intros m e; rewrite elem_of_nil; tauto. }
  set (st1 := socket_join s s _).
  assert (or_guest (Some displayName) = displayName) as Hname.
  { simpl. by rewrite decide_False. }
  assert (Hout : ∀ m e, (m, e) ∈ (on_join_room s roomId (Some displayName) st1).2 →
            e = room_full roomId ∨ e = peer_joined s displayName
            ∨ ∃ peers, e = joined_room roomId peers).
  { intros m e.
    destruct (decide (2 ≤ JsMap.size (default [] (roomIdToParticipants st1 !! roomId)))%nat).
    - rewrite on_join_room_full by done.
      intros [= -> ->]%list_elem_of_singleton. by left.
    - rewrite on_join_room_accepted by (done || lia). cbn [snd]. rewrite Hname.
      intros [Hin|Hin]%elem_of_app.
      + apply list_elem_of_fmap in Hin as (y & [= -> ->] & _). right. by left.
      + apply list_elem_of_singleton in Hin as [= -> ->]. right. right. eauto. }
  destruct (on_join_room s roomId (Some displayName) st1) as [st2 out] eqn:E.
  simpl in *. rewrite app_nil_r. split_and!.
  - split; [done|]. naive_solver.
  - intros m msg Hin. destruct (Hout _ _ Hin) as [?|[?|[? ?]]]; done.
  - intros m name Hin. destruct (Hout _ _ Hin) as [?|[[= ->]|[? ?]]]; done.
Qed.





